(** * sish, package utils: connection handling (utils/conn.go)

    A shallow embedding of the session state ([SSHConnection]), its
    message delivery and teardown, the tee-capturing reader used to peek
    a TLS ClientHello, the idle-timeout wrapper and the bidirectional
    relay, followed by the properties established about them.

    Conventions.
    - Go values that are shared through pointers (channels, the
      [sync.Once], the [bytes.Buffer], connections) are threaded
      explicitly as state.
    - What other goroutines do is an explicit environment: a function
      applied to the shared state at each point where the modelled
      goroutine yields, together with the choice made by [select] when
      several of its cases are ready.
    - A Go panic is the [Panic] result. *)

From Stdlib Require Import ZArith Lia.
From stdpp Require Import base option list strings gmap.

Open Scope Z_scope.

(** ** Results of operations that may panic *)

Inductive result (A : Type) : Type :=
| Ok (a : A)
| Panic (why : string).
Arguments Ok {A} a.
Arguments Panic {A} why.

Definition result_bind {A B} (r : result A) (f : A -> result B) : result B :=
  match r with
  | Ok a => f a
  | Panic why => Panic why
  end.

(** Go's [error] interface value; [None : option error] is [nil]. *)
Inductive error : Type :=
| ErrClosedPipe                (* io.ErrClosedPipe *)
| EOF                          (* io.EOF *)
| ErrShortWrite                (* io.ErrShortWrite *)
| ErrInvalidWrite              (* io: errInvalidWrite *)
| ErrOther (msg : string).

(** [time.Duration] and [time.Time] are counted in nanoseconds. *)
Definition Duration := Z.
Definition Time := Z.
Definition Millisecond : Duration := 1000000.
Definition Time_Add (t : Time) (d : Duration) : Time := t + d.

(** ** Channels *)

Module Chan.

(** A Go channel [chan A]: capacity, buffered values, number of
    goroutines parked in a receive, the values handed directly to such
    receivers, and the closed flag. *)
Record chan (A : Type) : Type := mk {
  cap : nat;
  buf : list A;
  recvq : nat;
  handed : list A;
  closed : bool
}.
Arguments mk {A}.
Arguments cap {A}.
Arguments buf {A}.
Arguments recvq {A}.
Arguments handed {A}.
Arguments closed {A}.

(** [make(chan A)] *)
Definition make (A : Type) : chan A := mk 0%nat [] 0%nat [] false.

(** A receive can proceed: a value is buffered, or the channel is
    closed (the receive then yields the zero value). *)
Definition recv_ready {A} (c : chan A) : bool :=
  closed c || negb (Nat.eqb (length (buf c)) 0).

(** A send can proceed: a receiver is parked, or the buffer has room;
    on a closed channel it proceeds by panicking. *)
Definition send_ready {A} (c : chan A) : bool :=
  closed c || Nat.ltb 0 (recvq c) || Nat.ltb (length (buf c)) (cap c).

(** [c <- v] once it can proceed. *)
Definition send {A} (c : chan A) (v : A) : result (chan A) :=
  if closed c then Panic "send on closed channel"
  else if Nat.ltb 0 (recvq c)
       then Ok (mk (cap c) (buf c) (Nat.pred (recvq c)) (handed c ++ [v]) false)
       else Ok (mk (cap c) (buf c ++ [v]) (recvq c) (handed c) false).

(** [close(c)] *)
Definition close {A} (c : chan A) : result (chan A) :=
  if closed c then Panic "close of closed channel"
  else Ok (mk (cap c) (buf c) (recvq c) (handed c) true).

End Chan.

Abbreviation chan := Chan.chan.

(** ** [sync.Once] and [sync.Mutex] *)

Record Once : Type := mkOnce {
  once_done : bool;     (* o.done *)
  once_m : bool         (* o.m is held *)
}.

Definition Mutex := bool.

(** ** The session *)

(** [*ssh.ServerConn], as far as this package uses it. *)
Record ServerConn : Type := mkServerConn {
  RemoteAddr : string;
  User : string;
  conn_closed : bool
}.

(** [SSHConn.Close()]: the first call closes the connection, a later one
    reports an error; the connection stays closed. *)
Definition ServerConn_Close (c : ServerConn) : ServerConn * option error :=
  (mkServerConn (RemoteAddr c) (User c) true,
   if conn_closed c then Some (ErrOther "use of closed network connection")
   else None).

(** A [net.Listener] handle. *)
Definition Listener := nat.

Record SSHConnection : Type := mkSSHConnection {
  SSHConn : ServerConn;
  Listeners : gmap string Listener;
  Closed : Once;
  Close : chan bool;
  Exec : chan bool;
  Messages : chan string;
  ProxyProto : Byte.byte;
  HostHeader : string;
  StripPath : bool;
  SNIProxy : bool;
  TCPAlias : bool;
  LocalForward : bool;
  Session : chan bool;
  CleanupHandler : bool;
  SetupLock : Mutex
}.

Definition set_SSHConn (s : SSHConnection) (c : ServerConn) : SSHConnection :=
  mkSSHConnection c (Listeners s) (Closed s) (Close s) (Exec s) (Messages s)
    (ProxyProto s) (HostHeader s) (StripPath s) (SNIProxy s) (TCPAlias s)
    (LocalForward s) (Session s) (CleanupHandler s) (SetupLock s).

Definition set_Closed (s : SSHConnection) (o : Once) : SSHConnection :=
  mkSSHConnection (SSHConn s) (Listeners s) o (Close s) (Exec s) (Messages s)
    (ProxyProto s) (HostHeader s) (StripPath s) (SNIProxy s) (TCPAlias s)
    (LocalForward s) (Session s) (CleanupHandler s) (SetupLock s).

Definition set_Close (s : SSHConnection) (c : chan bool) : SSHConnection :=
  mkSSHConnection (SSHConn s) (Listeners s) (Closed s) c (Exec s) (Messages s)
    (ProxyProto s) (HostHeader s) (StripPath s) (SNIProxy s) (TCPAlias s)
    (LocalForward s) (Session s) (CleanupHandler s) (SetupLock s).

Definition set_Messages (s : SSHConnection) (c : chan string) : SSHConnection :=
  mkSSHConnection (SSHConn s) (Listeners s) (Closed s) (Close s) (Exec s) c
    (ProxyProto s) (HostHeader s) (StripPath s) (SNIProxy s) (TCPAlias s)
    (LocalForward s) (Session s) (CleanupHandler s) (SetupLock s).

(** *** SendMessage *)

(** What a call of [SendMessage] does, in order. *)
Inductive send_event : Type :=
| EvSelect (i : nat)             (* the select of iteration [i] is evaluated *)
| EvSleep (d : Duration)         (* time.Sleep(d) *)
| EvSend (message : string).     (* the message is handed to s.Messages *)

(** How a call of [SendMessage] ends. *)
Inductive send_outcome : Type :=
| Sent            (* the channel took the message *)
| Cancelled       (* case <-s.Close *)
| Dropped.        (* the loop ran out of iterations *)

(** The other goroutines, as seen by one call: [env_step k] is what they
    do to the session between the call's [k]-th and [k+1]-th look at
    the channels; [env_pick k] is the choice of the [k]-th [select]
    when both of its communications can proceed ([true]: the first). *)
Record env : Type := mkEnv {
  env_step : nat -> SSHConnection -> SSHConnection;
  env_pick : nat -> bool
}.

Inductive select_case : Type := CaseClose | CaseSend | CaseDefault.

(** [select { case <-s.Close: ; case s.Messages <- message: ; default: }]:
    a case that can proceed is chosen, at random when both can;
    [default] only when none can. *)
Definition select (s : SSHConnection) (pick : bool) : select_case :=
  match Chan.recv_ready (Close s), Chan.send_ready (Messages s) with
  | true, true => if pick then CaseClose else CaseSend
  | true, false => CaseClose
  | false, true => CaseSend
  | false, false => CaseDefault
  end.

Definition send_result : Type :=
  result (send_outcome * SSHConnection * list send_event).

Definition do_send (s : SSHConnection) (message : string)
    (tr : list send_event) : send_result :=
  match Chan.send (Messages s) message with
  | Ok c => Ok (Sent, set_Messages s c, tr ++ [EvSend message])
  | Panic why => Panic why
  end.

(** [for i := 0; i < 5; { select {...} }], by recursion on the number
    [n = 5 - i] of iterations left. *)
Fixpoint send_loop (n : nat) (i : nat) (e : env) (s : SSHConnection)
    (message : string) (tr : list send_event) : send_result :=
  match n with
  | O => Ok (Dropped, s, tr)
  | S n' =>
      match select s (env_pick e i) with
      | CaseClose => Ok (Cancelled, s, tr ++ [EvSelect i])
      | CaseSend => do_send s message (tr ++ [EvSelect i])
      | CaseDefault =>
          send_loop n' (S i) e (env_step e i s) message
            (tr ++ [EvSelect i; EvSleep (100 * Millisecond)])
      end
  end.

(** [s.Messages <- message]: the goroutine is parked until the channel
    can take the message. [fuel] bounds the number of times the
    scheduler looks at it; [None] is a goroutine still parked. *)
Fixpoint send_block (fuel : nat) (k : nat) (e : env) (s : SSHConnection)
    (message : string) : option send_result :=
  match fuel with
  | O => None
  | S fuel' =>
      if Chan.send_ready (Messages s)
      then Some (do_send s message [])
      else send_block fuel' (S k) e (env_step e k s) message
  end.

Definition SendMessage (fuel : nat) (e : env) (s : SSHConnection)
    (message : string) (block : bool) : option send_result :=
  if block then send_block fuel 0%nat e s message
  else Some (send_loop 5 0 e s message []).

Definition is_select (ev : send_event) : bool :=
  match ev with EvSelect _ => true | _ => false end.

Definition is_sleep (ev : send_event) : bool :=
  match ev with EvSleep _ => true | _ => false end.

Definition is_send (ev : send_event) : bool :=
  match ev with EvSend _ => true | _ => false end.

(** The iterations [i], ..., [i + n - 1] of the loop when each of them
    ends in the [default] case. *)
Definition attempts (i n : nat) : list send_event :=
  flat_map (fun j => [EvSelect j; EvSleep (100 * Millisecond)]) (seq i n).

(** The session as the [k]-th look of a call finds it, when every
    earlier look found nothing to do. *)
Fixpoint session_at (e : env) (s : SSHConnection) (k : nat) : SSHConnection :=
  match k with
  | O => s
  | S k' => env_step e k' (session_at e s k')
  end.

(** *** CleanUp *)

(** Modelled from the spec: the declaration of [State] is not part of
    utils/conn.go. Its field [SSHConnections] is the session tracking
    registry, a concurrency-safe mapping from the remote address to the
    session (here the session's handle), consumed through [Delete]. *)
Record State : Type := mkState {
  SSHConnections : gmap string nat
}.

(** The side effects of the teardown body, as they happen. *)
Inductive effect : Type :=
| EffCloseSignal                   (* close(s.Close) *)
| EffConnClose                     (* s.SSHConn.Close() *)
| EffDelete (key : string)         (* state.SSHConnections.Delete(key) *)
| EffLog (line : string).          (* log.Println(...) *)

(** Everything [CleanUp] reads or writes: the session, the tracker, the
    log, and the record of the side effects performed. *)
Record world : Type := mkWorld {
  w_sess : SSHConnection;
  w_state : State;
  w_log : list string;
  w_effects : list effect
}.

Definition with_once (o : Once) (w : world) : world :=
  mkWorld (set_Closed (w_sess w) o) (w_state w) (w_log w) (w_effects w).

(** [close(s.Close)] *)
Definition stmt_close_signal (w : world) : result world :=
  match Chan.close (Close (w_sess w)) with
  | Ok c => Ok (mkWorld (set_Close (w_sess w) c) (w_state w) (w_log w)
                  (w_effects w ++ [EffCloseSignal]))
  | Panic why => Panic why
  end.

(** [s.SSHConn.Close()]; the error it returns is discarded. *)
Definition stmt_conn_close (w : world) : result world :=
  let '(c, _) := ServerConn_Close (SSHConn (w_sess w)) in
  Ok (mkWorld (set_SSHConn (w_sess w) c) (w_state w) (w_log w)
        (w_effects w ++ [EffConnClose])).

(** [state.SSHConnections.Delete(s.SSHConn.RemoteAddr().String())] *)
Definition stmt_delete (w : world) : result world :=
  let key := RemoteAddr (SSHConn (w_sess w)) in
  Ok (mkWorld (w_sess w)
        (mkState (delete key (SSHConnections (w_state w))))
        (w_log w) (w_effects w ++ [EffDelete key])).

Definition closed_line (c : ServerConn) : string :=
  String.append "Closed SSH connection for: "
    (String.append (RemoteAddr c) (String.append " user: " (User c))).

(** [log.Println("Closed SSH connection for:", ..., "user:", ...)] *)
Definition stmt_log (w : world) : result world :=
  let line := closed_line (SSHConn (w_sess w)) in
  Ok (mkWorld (w_sess w) (w_state w) (w_log w ++ [line])
        (w_effects w ++ [EffLog line])).

(** The function literal passed to [s.Closed.Do]. *)
Definition cleanup_body : list (world -> result world) :=
  [stmt_close_signal; stmt_conn_close; stmt_delete; stmt_log].

Fixpoint run_stmts (l : list (world -> result world)) (w : world)
    : result world :=
  match l with
  | [] => Ok w
  | st :: l' => result_bind (st w) (run_stmts l')
  end.

(** [o.Do(f)] when no other goroutine is inside [Do]: [f] runs if and
    only if [o.done] is not set, which is set when [f] returns. *)
Definition Once_Do (f : world -> result world) (w : world) : result world :=
  let o := Closed (w_sess w) in
  if once_done o then Ok w
  else result_bind (f w) (fun w' => Ok (with_once (mkOnce true (once_m o)) w')).

Definition CleanUp (w : world) : result world :=
  Once_Do (run_stmts cleanup_body) w.

(** [n] calls of [CleanUp], one after the other. *)
Fixpoint CleanUp_times (n : nat) (w : world) : result world :=
  match n with
  | O => Ok w
  | S n' => result_bind (CleanUp w) (CleanUp_times n')
  end.

(** *** Concurrent calls of CleanUp

    Each goroutine calling [CleanUp] goes through [sync.Once.Do]:
<<
      if o.done.Load() == 0 {          PcCall
        o.m.Lock()                     PcLock
        defer o.m.Unlock()
        if o.done.Load() == 0 {        PcCheck
          defer o.done.Store(1)
          f()                          PcBody 0 .. PcBody 3
        }                              PcStore
      }                                PcUnlock
                                       PcRet
>>
    One step of one goroutine is one of these atomic actions. *)
Inductive pc : Type :=
| PcCall | PcLock | PcCheck | PcBody (k : nat) | PcStore | PcUnlock | PcRet.

Definition set_once_m (b : bool) (w : world) : world :=
  with_once (mkOnce (once_done (Closed (w_sess w))) b) w.

Definition set_once_done (b : bool) (w : world) : world :=
  with_once (mkOnce b (once_m (Closed (w_sess w)))) w.

Definition thread_step (w : world) (p : pc) : result (world * pc) :=
  let o := Closed (w_sess w) in
  match p with
  | PcCall => Ok (w, if once_done o then PcRet else PcLock)
  | PcLock => if once_m o then Ok (w, PcLock)
              else Ok (set_once_m true w, PcCheck)
  | PcCheck => Ok (w, if once_done o then PcUnlock else PcBody 0)
  | PcBody k =>
      match cleanup_body !! k with
      | Some st =>
          result_bind (st w) (fun w' =>
            Ok (w', if Nat.ltb (S k) (length cleanup_body)
                    then PcBody (S k) else PcStore))
      | None => Ok (w, PcStore)
      end
  | PcStore => Ok (set_once_done true w, PcUnlock)
  | PcUnlock => Ok (set_once_m false w, PcRet)
  | PcRet => Ok (w, PcRet)
  end.

Record config : Type := mkConfig {
  cw : world;
  pcs : list pc
}.

(** The scheduler lets goroutine [i] take a step. *)
Definition step (i : nat) (c : config) : result config :=
  match pcs c !! i with
  | None => Ok c
  | Some p =>
      result_bind (thread_step (cw c) p) (fun '(w', p') =>
        Ok (mkConfig w' (<[i := p']> (pcs c))))
  end.

Fixpoint run (sched : list nat) (c : config) : result config :=
  match sched with
  | [] => Ok c
  | i :: sched' => result_bind (step i c) (run sched')
  end.

(** [n] goroutines, each about to call [CleanUp] on the same session. *)
Definition init (n : nat) (w : world) : config :=
  mkConfig w (replicate n PcCall).

Definition all_returned (c : config) : Prop :=
  Forall (fun p => p = PcRet) (pcs c).

(** A session whose teardown guard has not fired and is not being run,
    and whose close signal is still open. *)
Definition fresh (w : world) : Prop :=
  Closed (w_sess w) = mkOnce false false /\
  Chan.closed (Close (w_sess w)) = false.

(** The side effects of one run of the teardown body on [w]. *)
Definition body_effects (w : world) : list effect :=
  let c := SSHConn (w_sess w) in
  [EffCloseSignal; EffConnClose; EffDelete (RemoteAddr c);
   EffLog (closed_line c)].

(** The world once the first [k] statements of the body have run on [w]. *)
Definition torn_down (k : nat) (w : world) : world :=
  let s := w_sess w in
  let c := SSHConn s in
  let ch := Close s in
  let s1 :=
    if Nat.leb 1 k
    then set_Close s (Chan.mk (Chan.cap ch) (Chan.buf ch) (Chan.recvq ch)
                        (Chan.handed ch) true)
    else s in
  let s2 :=
    if Nat.leb 2 k
    then set_SSHConn s1 (mkServerConn (RemoteAddr c) (User c) true)
    else s1 in
  mkWorld s2
    (if Nat.leb 3 k
     then mkState (delete (RemoteAddr c) (SSHConnections (w_state w)))
     else w_state w)
    (if Nat.leb 4 k then w_log w ++ [closed_line c] else w_log w)
    (w_effects w ++ take k (body_effects w)).

(** A goroutine between [o.m.Lock()] and [o.m.Unlock()]. *)
Definition crit (p : pc) : bool :=
  match p with
  | PcCheck | PcBody _ | PcStore | PcUnlock => true
  | PcCall | PcLock | PcRet => false
  end.

(** The number of steps a goroutine at [p] has at most left. *)
Definition rank (p : pc) : nat :=
  match p with
  | PcCall => 9
  | PcLock => 8
  | PcCheck => 7
  | PcBody k => 6 - k
  | PcStore => 2
  | PcUnlock => 1
  | PcRet => 0
  end.

Definition measure (c : config) : nat := sum_list (rank <$> pcs c).

#[export] Instance pc_eq_dec : EqDecision pc.
Proof. solve_decision. Defined.

(** What the guard's flag [d] and the number [k] of body statements
    already run allow a goroutine to be at. *)
Definition pc_ok (d : bool) (k : nat) (p : pc) : Prop :=
  match p with
  | PcCall | PcLock => True
  | PcCheck => d = false -> k = 0%nat
  | PcBody j => d = false /\ j = k /\ (k < 4)%nat
  | PcStore => d = false /\ k = 4%nat
  | PcUnlock | PcRet => d = true
  end.

(** The invariant of the concurrent calls on a session that started as
    [w0]: the world is [w0] after [k] statements of the body, with the
    guard at [d] and its mutex at [m]; at most one goroutine is between
    lock and unlock, and exactly when the mutex is held. *)
Definition inv (w0 : world) (c : config) : Prop :=
  exists (k : nat) (d m : bool),
    cw c = with_once (mkOnce d m) (torn_down k w0) /\
    (k <= 4)%nat /\
    (d = true -> k = 4%nat) /\
    (m = false -> d = false -> k = 0%nat) /\
    (forall i p, pcs c !! i = Some p -> pc_ok d k p) /\
    (forall i j p q, pcs c !! i = Some p -> pcs c !! j = Some q ->
       crit p = true -> crit q = true -> i = j) /\
    (m = true <-> exists i p, pcs c !! i = Some p /\ crit p = true).

(** ** Readers, the tee and the TLS hello *)

Abbreviation byte := Byte.byte.

(** [io.Reader]. A call [Read(p)] is given [len(p)] and yields the bytes
    [p[:n]] it stored together with the error. *)
Class io_Reader (R : Type) : Type :=
  io_Read : R -> nat -> R * (list byte * option error).

(** A [bytes.Buffer]: the bytes written and not yet read. *)
Definition Buffer := list byte.

(** [bytes.NewBuffer(buf)] *)
Definition NewBuffer (b : list byte) : Buffer := b.

(** [Write] of a [bytes.Buffer]: appends, and never returns an error. *)
Definition Buffer_Write (b : Buffer) (p : list byte)
    : Buffer * (nat * option error) :=
  (b ++ p, (length p, None)).

(** [io.TeeReader(r, w)], for [w] a [*bytes.Buffer]:
<<
      n, err = t.r.Read(p)
      if n > 0 {
        if n, err := t.w.Write(p[:n]); err != nil { return n, err }
      }
      return
>> *)
Definition teeReader_Read {R} `{io_Reader R} (t : R * Buffer) (n : nat)
    : (R * Buffer) * (list byte * option error) :=
  let '(r', (bs, err)) := io_Read (fst t) n in
  if Nat.ltb 0 (length bs)
  then
    let '(w', (m, werr)) := Buffer_Write (snd t) bs in
    match werr with
    | Some e => ((r', w'), (take m bs, Some e))
    | None => ((r', w'), (bs, err))
    end
  else ((r', snd t), (bs, err)).

(** [TeeConn]. Its [Reader] is the tee reader built by [NewTeeConn]
    over the wrapped reader, and that tee reader writes into the very
    buffer the [Buffer] field points to: the record holds the wrapped
    reader and the one shared buffer. *)
Record TeeConn (R : Type) : Type := mkTeeConn {
  Reader : R;
  Buffer_ : Buffer
}.
Arguments mkTeeConn {R}.
Arguments Reader {R}.
Arguments Buffer_ {R}.

Module TeeConn.
Section Methods.
Context {R : Type} `{io_Reader R}.

Definition Read (conn : TeeConn R) (n : nat)
    : TeeConn R * (list byte * option error) :=
  let '((r', w'), res) := teeReader_Read (Reader conn, Buffer_ conn) n in
  (mkTeeConn r' w', res).

Definition Write (conn : TeeConn R) (p : list byte)
    : TeeConn R * (nat * option error) :=
  (conn, (0%nat, Some ErrClosedPipe)).

Definition Close (conn : TeeConn R) : TeeConn R * option error :=
  (conn, None).

Definition SetDeadline (conn : TeeConn R) (t : Time)
    : TeeConn R * option error := (conn, None).

Definition SetReadDeadline (conn : TeeConn R) (t : Time)
    : TeeConn R * option error := (conn, None).

Definition SetWriteDeadline (conn : TeeConn R) (t : Time)
    : TeeConn R * option error := (conn, None).

Definition GetBuffer (conn : TeeConn R) : Buffer := Buffer_ conn.
End Methods.
End TeeConn.

Definition NewTeeConn {R} (reader : R) : TeeConn R :=
  mkTeeConn reader (NewBuffer []).

(** [Read] calls of the given sizes, one after the other; the result is
    what each call returned. *)
Fixpoint read_all {R} `{io_Reader R} (conn : TeeConn R) (sizes : list nat)
    : TeeConn R * list (list byte * option error) :=
  match sizes with
  | [] => (conn, [])
  | n :: sizes' =>
      let '(conn1, res) := TeeConn.Read conn n in
      let '(conn2, rest) := read_all conn1 sizes' in
      (conn2, res :: rest)
  end.

(** A reader that also records, in order, every byte the reader it
    wraps has produced. *)
Record traced (R : Type) : Type := mkTraced {
  inner : R;
  produced : list byte
}.
Arguments mkTraced {R}.
Arguments inner {R}.
Arguments produced {R}.

#[export] Instance traced_Reader {R} `{io_Reader R} : io_Reader (traced R) :=
  fun t n =>
    let '(r', (bs, err)) := io_Read (inner t) n in
    (mkTraced r' (produced t ++ bs), (bs, err)).

(** A byte stream as a reader: [rest] is what is left of the input;
    each call delivers at most the head of [limits] bytes (no limit
    once the list is used up); at the end of the input the error
    [final] is returned, together with the last bytes when [eager]. *)
Record stream : Type := mkStream {
  rest : list byte;
  limits : list nat;
  final : error;
  eager : bool
}.

#[export] Instance stream_Reader : io_Reader stream :=
  fun s n =>
    let l := match limits s with [] => n | l :: _ => Nat.min n l end in
    let out := take l (rest s) in
    let rest' := drop l (rest s) in
    let s' := mkStream rest' (tail (limits s)) (final s) (eager s) in
    match rest s with
    | [] => (s', ([], Some (final s)))
    | _ :: _ =>
        (s', (out, if eager s && Nat.eqb (length rest') 0
                   then Some (final s) else None))
    end.

(** [tls.ClientHelloInfo], the fields used for routing. *)
Record ClientHelloInfo : Type := mkClientHelloInfo {
  ServerName : string;
  SupportedProtos : list string;
  SupportedVersions : list Z
}.

(** [*tls.Config] as returned by a [GetConfigForClient] callback. *)
Inductive tls_Config : Type := TLSConfig.

(** The behaviour of [tls.Server(conn, config).Handshake()], which is
    not part of this package: it reads from and writes to the
    connection, may call [config.GetConfigForClient] with the hello it
    has parsed, and returns an error or [nil]. Each answer decides how
    it goes on. *)
Inductive handshake : Type :=
| HsRead (n : nat) (k : list byte -> option error -> handshake)
| HsWrite (p : list byte) (k : nat -> option error -> handshake)
| HsGetConfigForClient (hello : ClientHelloInfo)
    (k : option tls_Config -> option error -> handshake)
| HsReturn (err : option error).

(** What a run of the handshake did: the bytes each of its reads was
    given, and the hellos passed to the callback. *)
Record hs_log : Type := mkHsLog {
  hs_reads : list (list byte);
  hs_hellos : list ClientHelloInfo
}.

(** The function literal of [PeakTLSHello]:
    [tlsHello = hello; return nil, nil]. *)
Definition GetConfigForClient (tlsHello : option ClientHelloInfo)
    (hello : ClientHelloInfo)
    : option ClientHelloInfo * (option tls_Config * option error) :=
  (Some hello, (None, None)).

Fixpoint Handshake {R} `{io_Reader R} (h : handshake) (conn : TeeConn R)
    (tlsHello : option ClientHelloInfo) (lg : hs_log)
    : TeeConn R * option ClientHelloInfo * hs_log * option error :=
  match h with
  | HsRead n k =>
      let '(conn', (bs, err)) := TeeConn.Read conn n in
      Handshake (k bs err) conn' tlsHello
        (mkHsLog (hs_reads lg ++ [bs]) (hs_hellos lg))
  | HsWrite p k =>
      let '(conn', (n, err)) := TeeConn.Write conn p in
      Handshake (k n err) conn' tlsHello lg
  | HsGetConfigForClient hello k =>
      let '(tlsHello', (cfg, err)) := GetConfigForClient tlsHello hello in
      Handshake (k cfg err) conn tlsHello'
        (mkHsLog (hs_reads lg) (hs_hellos lg ++ [hello]))
  | HsReturn err => (conn, tlsHello, lg, err)
  end.

(** What a call of [PeakTLSHello] gives: the three values the Go
    function returns and, next to them, the reader as the call leaves
    it and the log of the handshake. *)
Record peeked (R : Type) : Type := mkPeeked {
  peek_hello : option ClientHelloInfo;
  peek_buffer : Buffer;
  peek_err : option error;
  peek_reader : R;
  peek_log : hs_log
}.
Arguments mkPeeked {R}.
Arguments peek_hello {R}.
Arguments peek_buffer {R}.
Arguments peek_err {R}.
Arguments peek_reader {R}.
Arguments peek_log {R}.

(** [PeakTLSHello(reader)], against the handshake behaviour [h]. *)
Definition PeakTLSHello {R} `{io_Reader R} (h : handshake) (reader : R)
    : peeked R :=
  let tlsHello : option ClientHelloInfo := None in
  let teeConn := NewTeeConn reader in
  let '(teeConn', tlsHello', lg, err) :=
    Handshake h teeConn tlsHello (mkHsLog [] []) in
  mkPeeked tlsHello' (TeeConn.GetBuffer teeConn') err (Reader teeConn') lg.

(** [Read] calls of the given sizes on a reader itself. *)
Fixpoint source_reads {R} `{io_Reader R} (r : R) (sizes : list nat)
    : R * list (list byte * option error) :=
  match sizes with
  | [] => (r, [])
  | n :: sizes' =>
      let '(r1, res) := io_Read r n in
      let '(r2, rest) := source_reads r1 sizes' in
      (r2, res :: rest)
  end.

(** The bytes a list of [Read] results handed out. *)
Definition bytes_of (results : list (list byte * option error)) : list byte :=
  concat (fst <$> results).



(** A record of four bytes followed by three bytes of a next one. *)
Definition example_stream : stream :=
  mkStream
    [Byte.x16; Byte.x03; Byte.x01; Byte.x00; Byte.x04;
     Byte.x01; Byte.x00; Byte.x00; Byte.x00;
     Byte.xaa; Byte.xbb; Byte.xcc]
    [] EOF false.


(** A reader whose last bytes come with the error. *)
Definition example_eager_stream : stream :=
  mkStream [Byte.x01; Byte.x02; Byte.x03] []
    (ErrOther "connection reset by peer") true.

(** ** Connections, the idle timeout and the relay *)

(** A connection value ([net.Conn], [io.ReadWriteCloser]) is a handle
    into the network state, which both relay directions share. *)
Definition conn_id := nat.

(** The network state [W] and what can be done to it: the methods of
    the connections and the clock. A method is given the state at the
    moment it takes effect, so that an instance is free to let other
    goroutines or the peer act before it. [Write] returns the count as
    the implementation reports it. *)
Class Net (W : Type) : Type := {
  net_Read : conn_id -> W -> nat -> W * (list byte * option error);
  net_Write : conn_id -> W -> list byte -> W * (Z * option error);
  net_Close : conn_id -> W -> W * option error;
  net_SetReadDeadline : conn_id -> W -> Time -> W * option error;
  net_SetWriteDeadline : conn_id -> W -> Time -> W * option error;
  time_Now : W -> W * Time
}.

(** The options read through [viper]. *)
Record viper : Type := mkViper {
  idle_connection : bool;                (* "idle-connection" *)
  idle_connection_timeout : Duration;    (* "idle-connection-timeout" *)
  debug : bool                           (* "debug" *)
}.

(** The calls a function makes, in order. *)
Inductive call : Type :=
| CallNow
| CallSetReadDeadline (c : conn_id) (t : Time)
| CallSetWriteDeadline (c : conn_id) (t : Time)
| CallRead (c : conn_id) (n : nat)
| CallWrite (c : conn_id) (p : list byte)
| CallClose (c : conn_id)
| CallLog (what : string) (err : error).
Arguments CallSetReadDeadline c%_nat t%_Z.
Arguments CallSetWriteDeadline c%_nat t%_Z.
Arguments CallRead c%_nat n%_nat.
Arguments CallWrite c%_nat p.
Arguments CallClose c%_nat.

(** Computations on the network state that record their calls. *)
Definition M (W A : Type) : Type := W * list call -> (W * list call) * A.

Definition ret {W A} (a : A) : M W A := fun st => (st, a).

Definition bind {W A B} (m : M W A) (f : A -> M W B) : M W B :=
  fun st => let '(st', a) := m st in f a st'.

Notation "'let*' x ':=' c 'in' k" := (bind c (fun x => k))
  (at level 10, x pattern, c at level 100, k at level 200).

Section Relay.
Context {W : Type} `{Net W}.

Definition do_Now : M W Time :=
  fun '(w, tr) => let '(w', t) := time_Now w in ((w', tr ++ [CallNow]), t).

Definition do_SetReadDeadline (c : conn_id) (t : Time) : M W (option error) :=
  fun '(w, tr) =>
    let '(w', e) := net_SetReadDeadline c w t in
    ((w', tr ++ [CallSetReadDeadline c t]), e).

Definition do_SetWriteDeadline (c : conn_id) (t : Time) : M W (option error) :=
  fun '(w, tr) =>
    let '(w', e) := net_SetWriteDeadline c w t in
    ((w', tr ++ [CallSetWriteDeadline c t]), e).

Definition do_Read (c : conn_id) (n : nat) : M W (list byte * option error) :=
  fun '(w, tr) =>
    let '(w', r) := net_Read c w n in ((w', tr ++ [CallRead c n]), r).

Definition do_Write (c : conn_id) (p : list byte) : M W (Z * option error) :=
  fun '(w, tr) =>
    let '(w', r) := net_Write c w p in ((w', tr ++ [CallWrite c p]), r).

Definition do_Close (c : conn_id) : M W (option error) :=
  fun '(w, tr) =>
    let '(w', e) := net_Close c w in ((w', tr ++ [CallClose c]), e).

Definition do_Log (what : string) (err : error) : M W unit :=
  fun '(w, tr) => ((w, tr ++ [CallLog what err]), tt).
End Relay.

(** [IdleTimeoutConn] *)
Record IdleTimeoutConn : Type := mkIdleTimeoutConn {
  Conn : conn_id
}.

Module IdleTimeoutConn.
Section Methods.
Context {W : Type} `{Net W}.
Variable cfg : viper.

Definition Read (i : IdleTimeoutConn) (n : nat)
    : M W (list byte * option error) :=
  let* now := do_Now in
  let* err := do_SetReadDeadline (Conn i)
                (Time_Add now (idle_connection_timeout cfg)) in
  match err with
  | Some e => ret ([], Some e)
  | None => do_Read (Conn i) n
  end.

Definition Write (i : IdleTimeoutConn) (p : list byte)
    : M W (Z * option error) :=
  let* now := do_Now in
  let* err := do_SetWriteDeadline (Conn i)
                (Time_Add now (idle_connection_timeout cfg)) in
  match err with
  | Some e => ret (0, Some e)
  | None => do_Write (Conn i) p
  end.
End Methods.
End IdleTimeoutConn.

(** The [io.ReadWriter] values [CopyBoth] copies between: a connection
    as it is, or wrapped in an [IdleTimeoutConn]. *)
Inductive ReadWriter : Type :=
| RWConn (c : conn_id)
| RWIdle (i : IdleTimeoutConn).

Section Copy.
Context {W : Type} `{Net W}.
Variable cfg : viper.

Definition rw_Read (rw : ReadWriter) (n : nat)
    : M W (list byte * option error) :=
  match rw with
  | RWConn c => do_Read c n
  | RWIdle i => IdleTimeoutConn.Read cfg i n
  end.

Definition rw_Write (rw : ReadWriter) (p : list byte)
    : M W (Z * option error) :=
  match rw with
  | RWConn c => do_Write c p
  | RWIdle i => IdleTimeoutConn.Write cfg i p
  end.

(** The size of the buffer [io.Copy] allocates. *)
Definition copy_buffer_size : nat := 32 * 1024.

(** What [io.Copy] does once a read has returned [er]. *)
Definition after_read (written : Z) (er : option error)
    : option (Z * option error) :=
  match er with
  | Some EOF => Some (written, None)
  | Some e => Some (written, Some e)
  | None => None
  end.

(** [io.Copy(dst, src)], the loop of [io.copyBuffer] with its buffer
    of 32 KiB; the shortcuts it takes through [WriterTo] and
    [ReaderFrom] move the same bytes and return under the same
    conditions. [fuel] bounds the number of iterations; [None] is a
    copy still going on. The count [written] is kept unbounded: both
    callers discard it. *)
Fixpoint io_Copy (fuel : nat) (dst src : ReadWriter) (written : Z)
    : M W (option (Z * option error)) :=
  match fuel with
  | O => ret None
  | S fuel' =>
      let* (bs, er) := rw_Read src copy_buffer_size in
      let nr := Z.of_nat (length bs) in
      if 0 <? nr
      then
        let* (nw0, ew0) := rw_Write dst bs in
        let '(nw, ew) :=
          if (nw0 <? 0) || (nr <? nw0)
          then (0, match ew0 with
                   | None => Some ErrInvalidWrite
                   | Some e => Some e
                   end)
          else (nw0, ew0) in
        let written' := written + nw in
        match ew with
        | Some e => ret (Some (written', Some e))
        | None =>
            if negb (nr =? nw)
            then ret (Some (written', Some ErrShortWrite))
            else match after_read written' er with
                 | Some r => ret (Some r)
                 | None => io_Copy fuel' dst src written'
                 end
        end
      else match after_read written er with
           | Some r => ret (Some r)
           | None => io_Copy fuel' dst src written
           end
  end.

(** The closures of [CopyBoth(writer, reader)]. *)
Definition closeBoth (writer reader : conn_id) : M W unit :=
  let* _ := do_Close reader in
  let* _ := do_Close writer in
  ret tt.

Definition tcon (writer : conn_id) : ReadWriter :=
  if idle_connection cfg
  then RWIdle (mkIdleTimeoutConn writer)
  else RWConn writer.

Definition log_copy_error (what : string) (err : option error) : M W unit :=
  match err with
  | Some e => if debug cfg then do_Log what e else ret tt
  | None => ret tt
  end.

(** The calls by which a copy error is logged, if it is. *)
Definition log_calls (what : string) (err : option error) : list call :=
  match err with
  | Some e => if debug cfg then [CallLog what e] else []
  | None => []
  end.

(** What a direction makes of the outcome [r] of its copy: nothing
    while the copy is going on; otherwise the error is logged if there
    is one and [debug] is set, and both connections are closed, the
    upstream first, whatever [Close] returns. *)
Definition finish (what : string) (writer reader : conn_id)
    (r : (W * list call) * option (Z * option error))
    : (W * list call) * option unit :=
  match r with
  | (st, None) => (st, None)
  | ((w, tr), Some (_, err)) =>
      (((net_Close writer (net_Close reader w).1).1,
        tr ++ log_calls what err ++ [CallClose reader; CallClose writer]),
       Some tt)
  end.

(** [None]: the direction is still copying after [fuel] iterations. *)
Definition copyToReader (fuel : nat) (writer reader : conn_id)
    : M W (option unit) :=
  let* r := io_Copy fuel (RWConn reader) (tcon writer) 0 in
  match r with
  | None => ret None
  | Some (_, err) =>
      let* _ := log_copy_error "Error copying to reader:" err in
      let* _ := closeBoth writer reader in
      ret (Some tt)
  end.

Definition copyToWriter (fuel : nat) (writer reader : conn_id)
    : M W (option unit) :=
  let* r := io_Copy fuel (tcon writer) (RWConn reader) 0 in
  match r with
  | None => ret None
  | Some (_, err) =>
      let* _ := log_copy_error "Error copying to writer:" err in
      let* _ := closeBoth writer reader in
      ret (Some tt)
  end.

(** [CopyBoth]: [go copyToReader()] starts the other direction as a
    goroutine of its own, whose calls reach the caller only through
    the network state; the caller runs [copyToWriter]. *)
Definition CopyBoth (fuel : nat) (writer reader : conn_id)
    : M W (option unit) :=
  copyToWriter fuel writer reader.

(** The two directions of the relay. *)
Inductive direction : Type := ToReader | ToWriter.

(** The copy a direction runs and the direction itself. *)
Definition copy_of (d : direction) (fuel : nat) (writer reader : conn_id)
    : M W (option (Z * option error)) :=
  match d with
  | ToReader => io_Copy fuel (RWConn reader) (tcon writer) 0
  | ToWriter => io_Copy fuel (tcon writer) (RWConn reader) 0
  end.

Definition run_direction (d : direction) (fuel : nat)
    (writer reader : conn_id) : M W (option unit) :=
  match d with
  | ToReader => copyToReader fuel writer reader
  | ToWriter => copyToWriter fuel writer reader
  end.

Definition what_of (d : direction) : string :=
  match d with
  | ToReader => "Error copying to reader:"
  | ToWriter => "Error copying to writer:"
  end.
End Copy.

(** ** A network for examples *)

(** One end of a connection: the chunks the peer sends, one for each
    [Read]; the error [Read] reports once they are used up; the bytes
    written; whether [Close] was called; what setting a deadline
    reports; the deadlines set. *)
Record mock_conn : Type := mkMockConn {
  mc_inbox : list (list byte);
  mc_read_err : error;
  mc_outbox : list byte;
  mc_closed : bool;
  mc_deadline_err : option error;
  mc_read_deadline : option Time;
  mc_write_deadline : option Time
}.

Record mock_net : Type := mkMockNet {
  mn_conns : list mock_conn;
  mn_clock : Time
}.

Definition err_closed : error := ErrOther "use of closed network connection".
Definition err_bad_conn : error := ErrOther "invalid connection".

Definition mock_update (w : mock_net) (c : conn_id) (mc : mock_conn)
    : mock_net :=
  mkMockNet (<[c := mc]> (mn_conns w)) (mn_clock w).

Definition mock_Read (c : conn_id) (w : mock_net) (n : nat)
    : mock_net * (list byte * option error) :=
  match mn_conns w !! c with
  | None => (w, ([], Some err_bad_conn))
  | Some mc =>
      if mc_closed mc then (w, ([], Some err_closed))
      else match mc_inbox mc with
           | [] => (w, ([], Some (mc_read_err mc)))
           | chunk :: more =>
               let left := drop n chunk in
               let inbox' := match left with
                             | [] => more
                             | _ :: _ => left :: more
                             end in
               (mock_update w c
                  (mkMockConn inbox' (mc_read_err mc) (mc_outbox mc) false
                     (mc_deadline_err mc) (mc_read_deadline mc)
                     (mc_write_deadline mc)),
                (take n chunk, None))
           end
  end.

Definition mock_Write (c : conn_id) (w : mock_net) (p : list byte)
    : mock_net * (Z * option error) :=
  match mn_conns w !! c with
  | None => (w, (0, Some err_bad_conn))
  | Some mc =>
      if mc_closed mc then (w, (0, Some err_closed))
      else (mock_update w c
              (mkMockConn (mc_inbox mc) (mc_read_err mc) (mc_outbox mc ++ p)
                 false (mc_deadline_err mc) (mc_read_deadline mc)
                 (mc_write_deadline mc)),
            (Z.of_nat (length p), None))
  end.

Definition mock_Close (c : conn_id) (w : mock_net)
    : mock_net * option error :=
  match mn_conns w !! c with
  | None => (w, Some err_bad_conn)
  | Some mc =>
      if mc_closed mc then (w, Some err_closed)
      else (mock_update w c
              (mkMockConn (mc_inbox mc) (mc_read_err mc) (mc_outbox mc)
                 true (mc_deadline_err mc) (mc_read_deadline mc)
                 (mc_write_deadline mc)),
            None)
  end.

Definition mock_SetReadDeadline (c : conn_id) (w : mock_net) (t : Time)
    : mock_net * option error :=
  match mn_conns w !! c with
  | None => (w, Some err_bad_conn)
  | Some mc =>
      if mc_closed mc then (w, Some err_closed)
      else match mc_deadline_err mc with
           | Some e => (w, Some e)
           | None =>
               (mock_update w c
                  (mkMockConn (mc_inbox mc) (mc_read_err mc) (mc_outbox mc)
                     false None (Some t) (mc_write_deadline mc)),
                None)
           end
  end.

Definition mock_SetWriteDeadline (c : conn_id) (w : mock_net) (t : Time)
    : mock_net * option error :=
  match mn_conns w !! c with
  | None => (w, Some err_bad_conn)
  | Some mc =>
      if mc_closed mc then (w, Some err_closed)
      else match mc_deadline_err mc with
           | Some e => (w, Some e)
           | None =>
               (mock_update w c
                  (mkMockConn (mc_inbox mc) (mc_read_err mc) (mc_outbox mc)
                     false None (mc_read_deadline mc) (Some t)),
                None)
           end
  end.

Definition mock_Now (w : mock_net) : mock_net * Time :=
  (mkMockNet (mn_conns w) (mn_clock w + 1), mn_clock w).

#[export] Instance mock_Net : Net mock_net := {
  net_Read := mock_Read;
  net_Write := mock_Write;
  net_Close := mock_Close;
  net_SetReadDeadline := mock_SetReadDeadline;
  net_SetWriteDeadline := mock_SetWriteDeadline;
  time_Now := mock_Now
}.

(** Connection 0 is the downstream ([writer]), whose peer has sent
    nothing yet and is not at its end; connection 1 is the upstream
    ([reader]), whose peer sends two bytes and then ends. *)
Definition example_net : mock_net :=
  mkMockNet
    [mkMockConn [] (ErrOther "i/o timeout") [] false None None None;
     mkMockConn [[Byte.x68; Byte.x69]] EOF [] false None None None]
    1000.

(** The same, with an upstream already at its end. *)
Definition example_net_eof : mock_net :=
  mkMockNet
    [mkMockConn [] (ErrOther "i/o timeout") [] false None None None;
     mkMockConn [] EOF [] false None None None]
    1000.

(** A downstream that refuses deadlines. *)
Definition example_net_no_deadline : mock_net :=
  mkMockNet
    [mkMockConn [[Byte.x68]] EOF [] false
       (Some (ErrOther "set deadline: not supported")) None None]
    1000.

Definition example_viper : viper := mkViper true (30000 * Millisecond) true.

(** ** Example values *)

(** A session as the server sets it up: fresh channels, no consumer
    parked on the message channel yet. *)
Definition example_session : SSHConnection :=
  mkSSHConnection (mkServerConn "203.0.113.7:50000" "alice" false)
    ∅ (mkOnce false false) (Chan.make bool) (Chan.make bool)
    (Chan.make string) Byte.x00 "" false false false false
    (Chan.make bool) false false.

Definition example_world : world :=
  mkWorld example_session
    (mkState {["203.0.113.7:50000" := 1%nat]}) [] [].

(** Nothing else touches the session; [select] prefers its first case. *)
Definition env_idle : env := mkEnv (fun _ s => s) (fun _ => true).

(** During the first sleep of the call the session is torn down (the
    close signal is closed). *)
Definition env_teardown : env :=
  mkEnv
    (fun k s =>
       match k with
       | O => set_Close s (Chan.mk 0%nat [] 0%nat [] true)
       | S _ => s
       end)
    (fun _ => false).

(** During the first sleep of the call the session is torn down (the
    close signal is closed) while its consumer is parked in a receive
    on the message channel; [select] picks its second case. *)
Definition env_race : env :=
  mkEnv
    (fun k s =>
       match k with
       | O =>
           set_Messages
             (set_Close s (Chan.mk 0%nat [] 0%nat [] true))
             (Chan.mk 0%nat [] 1%nat [] false)
       | S _ => s
       end)
    (fun _ => false).

(** A consumer parks in a receive on the message channel during the
    first sleep of the call. *)
Definition env_consumer : env :=
  mkEnv
    (fun k s =>
       match k with
       | O => set_Messages s (Chan.mk 0%nat [] 1%nat [] false)
       | S _ => s
       end)
    (fun _ => true).

(** The example session after some other code has closed its message
    channel. *)
Definition example_session_messages_closed : SSHConnection :=
  set_Messages example_session (Chan.mk 0%nat [] 0%nat [] true).


(** The methods of a [TeeConn] as a [net.Conn], and what they return. *)
Inductive conn_op : Type :=
| OpRead (n : nat)
| OpWrite (p : list byte)
| OpClose
| OpSetDeadline (t : Time)
| OpSetReadDeadline (t : Time)
| OpSetWriteDeadline (t : Time).

Inductive conn_res : Type :=
| ResRead (bs : list byte) (err : option error)
| ResWrite (n : nat) (err : option error)
| ResErr (err : option error).

Definition tee_op {R} `{io_Reader R} (conn : TeeConn R) (op : conn_op)
    : TeeConn R * conn_res :=
  match op with
  | OpRead n =>
      let '(conn', (bs, err)) := TeeConn.Read conn n in (conn', ResRead bs err)
  | OpWrite p =>
      let '(conn', (n, err)) := TeeConn.Write conn p in (conn', ResWrite n err)
  | OpClose =>
      let '(conn', err) := TeeConn.Close conn in (conn', ResErr err)
  | OpSetDeadline t =>
      let '(conn', err) := TeeConn.SetDeadline conn t in (conn', ResErr err)
  | OpSetReadDeadline t =>
      let '(conn', err) := TeeConn.SetReadDeadline conn t in (conn', ResErr err)
  | OpSetWriteDeadline t =>
      let '(conn', err) := TeeConn.SetWriteDeadline conn t in (conn', ResErr err)
  end.

(** Method calls one after the other. *)
Fixpoint tee_ops {R} `{io_Reader R} (conn : TeeConn R) (ops : list conn_op)
    : TeeConn R * list conn_res :=
  match ops with
  | [] => (conn, [])
  | op :: ops' =>
      let '(conn1, res) := tee_op conn op in
      let '(conn2, rest) := tee_ops conn1 ops' in
      (conn2, res :: rest)
  end.

(** The sizes of the reads among the calls, and the results of the
    reads among the results. *)
Definition read_sizes (ops : list conn_op) : list nat :=
  flat_map (fun op => match op with OpRead n => [n] | _ => [] end) ops.

Definition read_results (rs : list conn_res)
    : list (list byte * option error) :=
  flat_map (fun r => match r with ResRead bs err => [(bs, err)] | _ => [] end)
    rs.

(** The results of the calls that are not reads. *)
Definition other_results (rs : list conn_res) : list conn_res :=
  List.filter (fun r => match r with ResRead _ _ => false | _ => true end) rs.

Definition shim_result (r : conn_res) : Prop :=
  r = ResWrite 0 (Some ErrClosedPipe) \/ r = ResErr None.

(** The connection behind a [ReadWriter], and whether it is wrapped. *)
Definition rw_conn (rw : ReadWriter) : conn_id :=
  match rw with
  | RWConn c => c
  | RWIdle i => Conn i
  end.

Definition rw_idle (rw : ReadWriter) : bool :=
  match rw with
  | RWConn _ => false
  | RWIdle _ => true
  end.

(** Kinds of calls. *)
Definition is_timer (c : call) : bool :=
  match c with
  | CallNow | CallSetReadDeadline _ _ | CallSetWriteDeadline _ _ => true
  | _ => false
  end.

Definition is_close (c : call) : bool :=
  match c with CallClose _ => true | _ => false end.

Definition is_log (c : call) : bool :=
  match c with CallLog _ _ => true | _ => false end.

(** A call that neither closes nor logs. *)
Definition quiet (c : call) : Prop := is_close c = false /\ is_log c = false.

(** The calls a direction of the relay may make: it reads from its
    source and writes to its destination, sets read deadlines (to the
    reader) or write deadlines (to the writer) on the downstream only,
    and closes the two connections it was given. *)
Definition direction_call_ok (d : direction) (writer reader : conn_id)
    (c : call) : Prop :=
  match c, d with
  | CallRead x _, ToWriter => x = reader
  | CallRead x _, ToReader => x = writer
  | CallWrite x _, ToWriter => x = writer
  | CallWrite x _, ToReader => x = reader
  | CallSetReadDeadline x _, ToReader => x = writer
  | CallSetReadDeadline _ _, ToWriter => False
  | CallSetWriteDeadline x _, ToWriter => x = writer
  | CallSetWriteDeadline _ _, ToReader => False
  | CallClose x, _ => x = reader \/ x = writer
  | CallNow, _ => True
  | CallLog _ _, _ => True
  end.

(** Every read and every write of [writer] in [tr] comes right after
    the clock was read and the matching deadline of [writer] was set. *)
Definition refreshed (writer : conn_id) (tr : list call) : Prop :=
  forall pre c post, tr = pre ++ c :: post ->
    match c with
    | CallRead x _ =>
        x = writer ->
        exists pre' t, pre = pre' ++ [CallNow; CallSetReadDeadline writer t]
    | CallWrite x _ =>
        x = writer ->
        exists pre' t, pre = pre' ++ [CallNow; CallSetWriteDeadline writer t]
    | _ => True
    end.

(** A computation that only adds calls to the record, and adds calls
    for which [Q] holds. *)
Definition appends {W A} (Q : list call -> Prop) (m : M W A) : Prop :=
  forall (w : W) (tr : list call),
    exists added, (m (w, tr)).1.2 = tr ++ added /\ Q added.

(** The payloads handed to [Write] on connection [c]. *)
Definition payloads (c : conn_id) (tr : list call) : list (list byte) :=
  flat_map (fun x => match x with
                     | CallWrite c' p => if Nat.eqb c' c then [p] else []
                     | _ => []
                     end) tr.

(** A network that also records what each [Read] returned. *)
Record recorded (W : Type) : Type := mkRecorded {
  rec_net : W;
  rec_reads : list (conn_id * list byte)
}.
Arguments mkRecorded {W}.
Arguments rec_net {W}.
Arguments rec_reads {W}.

#[export] Instance recorded_Net {W} `{Net W} : Net (recorded W) := {
  net_Read c w n :=
    let '(w', (bs, e)) := net_Read c (rec_net w) n in
    (mkRecorded w' (rec_reads w ++ [(c, bs)]), (bs, e));
  net_Write c w p :=
    let '(w', r) := net_Write c (rec_net w) p in
    (mkRecorded w' (rec_reads w), r);
  net_Close c w :=
    let '(w', e) := net_Close c (rec_net w) in
    (mkRecorded w' (rec_reads w), e);
  net_SetReadDeadline c w t :=
    let '(w', e) := net_SetReadDeadline c (rec_net w) t in
    (mkRecorded w' (rec_reads w), e);
  net_SetWriteDeadline c w t :=
    let '(w', e) := net_SetWriteDeadline c (rec_net w) t in
    (mkRecorded w' (rec_reads w), e);
  time_Now w :=
    let '(w', t) := time_Now (rec_net w) in
    (mkRecorded w' (rec_reads w), t)
}.

(** The non-empty chunks read from connection [c]. *)
Definition chunks (c : conn_id) (reads : list (conn_id * list byte))
    : list (list byte) :=
  flat_map (fun x => if Nat.eqb x.1 c
                     then match x.2 with [] => [] | _ :: _ => [x.2] end
                     else []) reads.

(** Source and destination of a direction. *)
Definition src_of (d : direction) (writer reader : conn_id) : conn_id :=
  match d with ToReader => writer | ToWriter => reader end.

Definition dst_of (d : direction) (writer reader : conn_id) : conn_id :=
  match d with ToReader => reader | ToWriter => writer end.

(** The error with which [io.Copy] ends after a write that returned
    the count [nw] and the error [ew] for [nr] bytes, if it ends. *)
Definition write_failure (nr nw : Z) (ew : option error) : option error :=
  if (nw <? 0) || (nr <? nw)
  then Some (match ew with None => ErrInvalidWrite | Some e => e end)
  else match ew with
       | Some e => Some e
       | None => if nr =? nw then None else Some ErrShortWrite
       end.

(** A downstream closed by its peer's reset while the upstream has two
    bytes to deliver. *)
Definition example_net_writer_closed : mock_net :=
  mkMockNet
    [mkMockConn [] (ErrOther "i/o timeout") [] true None None None;
     mkMockConn [[Byte.x68; Byte.x69]] EOF [] false None None None]
    1000.

(** * Properties *)

(** ** SendMessage *)

Section SendMessageFacts.
Variable e : env.
Variable s : SSHConnection.
Variable message : string.

Lemma select_default_iff (s0 : SSHConnection) (pick : bool) :
  select s0 pick = CaseDefault <->
  Chan.recv_ready (Close s0) = false /\
  Chan.send_ready (Messages s0) = false.
Proof.
  unfold select.
  destruct (Chan.recv_ready (Close s0)), (Chan.send_ready (Messages s0)),
    pick; intuition congruence.
Qed.

Lemma attempts_snoc (i n : nat) :
  attempts i (S n) =
  attempts i n ++ [EvSelect (i + n)%nat; EvSleep (100 * Millisecond)].
Proof.
  unfold attempts. rewrite seq_S, flat_map_app. simpl.
  reflexivity.
Qed.

Lemma attempts_cons (i n : nat) :
  attempts i (S n) =
  [EvSelect i; EvSleep (100 * Millisecond)] ++ attempts (S i) n.
Proof. reflexivity. Qed.

(** As long as the looks find nothing ready, the loop goes on. *)
Lemma send_loop_idle (m n i : nat) (tr : list send_event) :
  (forall k, (i <= k < i + m)%nat ->
     select (session_at e s k) (env_pick e k) = CaseDefault) ->
  send_loop (m + n) i e (session_at e s i) message tr =
  send_loop n (i + m) e (session_at e s (i + m)) message
    (tr ++ attempts i m).
Proof.
  revert i tr. induction m as [|m IH]; intros i tr Hidle.
  - rewrite Nat.add_0_r. unfold attempts. simpl.
    by rewrite app_nil_r.
  - simpl send_loop. rewrite (Hidle i) by lia.
    change (env_step e i (session_at e s i)) with (session_at e s (S i)).
    rewrite IH by (intros k Hk; apply Hidle; lia).
    rewrite attempts_cons, <- app_assoc.
    by replace (S i + m)%nat with (i + S m)%nat by lia.
Qed.

Lemma send_loop_dropped (tr : list send_event) :
  (forall k, (k < 5)%nat ->
     select (session_at e s k) (env_pick e k) = CaseDefault) ->
  send_loop 5 0 e s message tr =
  Ok (Dropped, session_at e s 5, tr ++ attempts 0 5).
Proof.
  intros Hidle.
  change (send_loop 5 0 e s message tr)
    with (send_loop (5 + 0) 0 e (session_at e s 0) message tr).
  rewrite send_loop_idle by (intros k Hk; apply Hidle; lia).
  reflexivity.
Qed.

(** The loop returns at the first look that finds something ready. *)
Lemma send_loop_first_ready (k : nat) :
  (k < 5)%nat ->
  (forall j, (j < k)%nat ->
     select (session_at e s j) (env_pick e j) = CaseDefault) ->
  send_loop 5 0 e s message [] =
  match select (session_at e s k) (env_pick e k) with
  | CaseClose => Ok (Cancelled, session_at e s k, attempts 0 k ++ [EvSelect k])
  | CaseSend => do_send (session_at e s k) message (attempts 0 k ++ [EvSelect k])
  | CaseDefault =>
      send_loop (4 - k) (S k) e (session_at e s (S k)) message
        (attempts 0 (S k))
  end.
Proof.
  intros Hk Hidle.
  change (send_loop 5 0 e s message [])
    with (send_loop 5 0 e (session_at e s 0) message []).
  replace 5%nat with (k + S (4 - k))%nat by lia.
  rewrite send_loop_idle by (intros j Hj; apply Hidle; lia).
  change (0 + k)%nat with k. simpl send_loop. change ([] ++ attempts 0 k) with (attempts 0 k).
  destruct (select (session_at e s k) (env_pick e k)); try reflexivity.
  rewrite attempts_snoc. reflexivity.
Qed.

(** The blocking send is parked as long as the channel cannot take the
    message, and returns at the first look at which it can. *)
Lemma send_block_parked (fuel i : nat) :
  (forall k, (i <= k < i + fuel)%nat ->
     Chan.send_ready (Messages (session_at e s k)) = false) ->
  send_block fuel i e (session_at e s i) message = None.
Proof.
  revert i. induction fuel as [|fuel IH]; intros i Hfull; [done|].
  simpl. rewrite (Hfull i) by lia.
  change (env_step e i (session_at e s i)) with (session_at e s (S i)).
  apply IH. intros k Hk. apply Hfull. lia.
Qed.

Lemma send_block_returns (fuel i : nat) :
  is_Some (send_block fuel i e (session_at e s i) message) <->
  exists k, (i <= k < i + fuel)%nat /\
    Chan.send_ready (Messages (session_at e s k)) = true.
Proof.
  revert i. induction fuel as [|fuel IH]; intros i.
  - simpl. split; [intros [? ?]; done | intros (k & ? & _); lia].
  - simpl.
    destruct (Chan.send_ready (Messages (session_at e s i))) eqn:Hr.
    + split; [|by eauto]. intros _. exists i. split; [lia|done].
    + change (env_step e i (session_at e s i)) with (session_at e s (S i)).
      rewrite IH. split.
      * intros (k & Hk & Hrk). exists k. split; [lia|done].
      * intros (k & Hk & Hrk). exists k. split; [|done].
        destruct (decide (k = i)) as [->|]; [congruence|lia].
Qed.
End SendMessageFacts.

(** C2. A non-blocking [SendMessage] that finds the message channel
    full and the close signal not fired at each of its looks makes
    five attempts (so at most five), sleeps 100 ms after each of them,
    and returns normally with the message dropped: nothing is sent, the
    message channel is as the other goroutines left it, and there is no
    error or panic. *)
Theorem SendMessage_full_channel_drops (fuel : nat) (e : env)
    (s : SSHConnection) (message : string) :
  (forall k, (k < 5)%nat ->
     Chan.send_ready (Messages (session_at e s k)) = false /\
     Chan.recv_ready (Close (session_at e s k)) = false) ->
  exists tr,
    SendMessage fuel e s message false =
      Some (Ok (Dropped, session_at e s 5, tr)) /\
    tr = [EvSelect 0; EvSleep (100 * Millisecond);
          EvSelect 1; EvSleep (100 * Millisecond);
          EvSelect 2; EvSleep (100 * Millisecond);
          EvSelect 3; EvSleep (100 * Millisecond);
          EvSelect 4; EvSleep (100 * Millisecond)] /\
    (length (List.filter is_select tr) <= 5)%nat /\
    List.filter is_send tr = [].
Proof.
  intros Hfull. exists (attempts 0 5). split; [|by vm_compute].
  unfold SendMessage. rewrite send_loop_dropped; [done|].
  intros k Hk. apply select_default_iff. destruct (Hfull k Hk). done.
Qed.

Lemma SendMessage_full_channel_drops_witness :
  exists tr,
    SendMessage 0 env_idle example_session "hello" false =
      Some (Ok (Dropped, session_at env_idle example_session 5, tr)) /\
    tr = [EvSelect 0; EvSleep (100 * Millisecond);
          EvSelect 1; EvSleep (100 * Millisecond);
          EvSelect 2; EvSleep (100 * Millisecond);
          EvSelect 3; EvSleep (100 * Millisecond);
          EvSelect 4; EvSleep (100 * Millisecond)] /\
    (length (List.filter is_select tr) <= 5)%nat /\
    List.filter is_send tr = [].
Proof.
  apply (SendMessage_full_channel_drops 0 env_idle example_session "hello").
  intros k Hk.
  do 5 (destruct k as [|k]; [split; reflexivity|]).
  lia.
Defined.

(** The claim of C8 as it is worded fails: the close signal fires
    during the first sleep, a consumer is parked on the message channel
    at the same moment, and the next [select], free to take either
    case, sends the message. *)
Lemma SendMessage_close_race_sends :
  ~ (forall (e : env) (s : SSHConnection) (message : string) (k : nat),
       (k < 5)%nat ->
       (forall j, (j < k)%nat ->
          select (session_at e s j) (env_pick e j) = CaseDefault) ->
       Chan.recv_ready (Close (session_at e s k)) = true ->
       exists s' tr,
         SendMessage 0 e s message false = Some (Ok (Cancelled, s', tr)) /\
         List.filter is_send tr = []).
Proof.
  intros Hclaim.
  destruct (Hclaim env_race example_session "hello" 1%nat) as (s' & tr & Hres & _).
  - lia.
  - intros j Hj. assert (j = 0%nat) as -> by lia. reflexivity.
  - reflexivity.
  - vm_compute in Hres. discriminate Hres.
Qed.

(** C8 (amended). When the close signal is found fired at look [k < 5]
    of a non-blocking [SendMessage], the earlier looks having found
    nothing ready, the call returns at that look, after [k] sleeps and
    before its attempts are used up. It returns without sending when
    the message channel is still full at that look, or when [select]
    takes the close case; otherwise the message is handed to the
    channel. *)
Theorem SendMessage_close_cancels (fuel : nat) (e : env)
    (s : SSHConnection) (message : string) (k : nat) :
  (k < 5)%nat ->
  (forall j, (j < k)%nat ->
     Chan.recv_ready (Close (session_at e s j)) = false /\
     Chan.send_ready (Messages (session_at e s j)) = false) ->
  Chan.recv_ready (Close (session_at e s k)) = true ->
  let sk := session_at e s k in
  let tr := attempts 0 k ++ [EvSelect k] in
  exists r,
    SendMessage fuel e s message false = Some r /\
    (r = Ok (Cancelled, sk, tr) \/ r = do_send sk message tr) /\
    (Chan.send_ready (Messages sk) = false \/ env_pick e k = true ->
     r = Ok (Cancelled, sk, tr)) /\
    List.filter is_send tr = [] /\
    length (List.filter is_sleep tr) = k.
Proof.
  intros Hk Hidle Hclose sk tr.
  assert (Hloop := send_loop_first_ready e s message k Hk).
  unfold SendMessage.
  rewrite Hloop by (intros j Hj; apply select_default_iff, Hidle, Hj).
  clear Hloop. fold tr. fold sk in Hclose |- *.
  assert (Htr : List.filter is_send tr = [] /\
                length (List.filter is_sleep tr) = k).
  { subst tr. clear. rewrite !List.filter_app. simpl.
    rewrite !app_nil_r. generalize 0%nat.
    induction k as [|k IH]; intros i; [done|].
    rewrite attempts_cons. simpl. destruct (IH (S i)) as [-> ->]. done. }
  unfold select. fold sk. rewrite Hclose.
  destruct (Chan.send_ready (Messages sk)) eqn:Hsend;
    [destruct (env_pick e k) eqn:Hpick|].
  - eexists. split; [reflexivity|]. split; [by left|]. split; [done|]. exact Htr.
  - eexists. split; [reflexivity|]. split; [by right|].
    split; [|exact Htr]. intros [?|?]; congruence.
  - eexists. split; [reflexivity|]. split; [by left|]. split; [done|]. exact Htr.
Qed.

Lemma SendMessage_close_cancels_witness :
  exists r,
    SendMessage 0 env_teardown example_session "hello" false = Some r /\
    (r = Ok (Cancelled, session_at env_teardown example_session 1,
             attempts 0 1 ++ [EvSelect 1]) \/
     r = do_send (session_at env_teardown example_session 1) "hello"
           (attempts 0 1 ++ [EvSelect 1])) /\
    (Chan.send_ready (Messages (session_at env_teardown example_session 1)) = false \/
     env_pick env_teardown 1 = true ->
     r = Ok (Cancelled, session_at env_teardown example_session 1,
             attempts 0 1 ++ [EvSelect 1])) /\
    List.filter is_send (attempts 0 1 ++ [EvSelect 1]) = [] /\
    length (List.filter is_sleep (attempts 0 1 ++ [EvSelect 1])) = 1%nat.
Proof.
  apply (SendMessage_close_cancels 0 env_teardown example_session "hello" 1).
  - lia.
  - intros j Hj. destruct j as [|j]; [split; reflexivity|lia].
  - reflexivity.
Defined.

(** ** CleanUp *)

Lemma torn_down_0 (w : world) : torn_down 0 w = w.
Proof.
  destruct w as [s st lg eff]. unfold torn_down. simpl.
  by rewrite app_nil_r.
Qed.

Lemma fresh_with_once (w : world) :
  fresh w -> with_once (mkOnce false false) w = w.
Proof.
  intros [Ho _]. destruct w as [s st lg eff]. simpl in Ho.
  destruct s. simpl in Ho. subst. reflexivity.
Qed.

(** From a world whose close signal is open, statement [k] of the body
    takes the world after [k] statements to the world after [k + 1],
    whatever the state of the guard. *)
Lemma stmt_torn_down (o : Once) (w : world) (k : nat)
    (st : world -> result world) :
  Chan.closed (Close (w_sess w)) = false ->
  cleanup_body !! k = Some st ->
  st (with_once o (torn_down k w)) = Ok (with_once o (torn_down (S k) w)).
Proof.
  intros Hopen Hk.
  destruct w as [s stt lg eff]. destruct s as [c ls cl ch]. simpl in Hopen.
  destruct ch as [cp bf rq hd clsd]. simpl in Hopen. subst clsd.
  destruct c as [addr user cc].
  destruct k as [|[|[|[|k]]]]; simpl in Hk; try discriminate;
    injection Hk as <-;
    unfold torn_down, with_once, stmt_close_signal, stmt_conn_close,
      stmt_delete, stmt_log;
    cbn -[closed_line]; rewrite <- ?app_assoc; reflexivity.
Qed.

Lemma run_stmts_fresh (o : Once) (w : world) :
  Chan.closed (Close (w_sess w)) = false ->
  run_stmts cleanup_body (with_once o w) = Ok (with_once o (torn_down 4 w)).
Proof.
  intros Hopen. unfold cleanup_body.
  rewrite <- (torn_down_0 w) at 1. cbn [run_stmts].
  rewrite (stmt_torn_down o w 0) by done. cbn [result_bind].
  rewrite (stmt_torn_down o w 1) by done. cbn [result_bind].
  rewrite (stmt_torn_down o w 2) by done. cbn [result_bind].
  rewrite (stmt_torn_down o w 3) by done. reflexivity.
Qed.

Lemma CleanUp_fresh (w : world) :
  fresh w ->
  CleanUp w = Ok (with_once (mkOnce true false) (torn_down 4 w)).
Proof.
  intros Hf. destruct (Hf) as [Ho Hopen].
  pose proof (run_stmts_fresh (mkOnce false false) w Hopen) as Hr.
  rewrite (fresh_with_once w Hf) in Hr.
  unfold CleanUp, Once_Do. rewrite Ho, Hr. reflexivity.
Qed.

Lemma CleanUp_done (w : world) :
  once_done (Closed (w_sess w)) = true -> CleanUp w = Ok w.
Proof. intros Hd. unfold CleanUp, Once_Do. by rewrite Hd. Qed.

Lemma CleanUp_times_done (n : nat) (w : world) :
  once_done (Closed (w_sess w)) = true -> CleanUp_times n w = Ok w.
Proof.
  intros Hd. induction n as [|n IH]; [done|].
  simpl. rewrite CleanUp_done by done. exact IH.
Qed.

Lemma CleanUp_times_fresh (n : nat) (w : world) :
  (1 <= n)%nat -> fresh w ->
  CleanUp_times n w = Ok (with_once (mkOnce true false) (torn_down 4 w)).
Proof.
  intros Hn Hf. destruct n as [|n]; [lia|].
  simpl. rewrite CleanUp_fresh by done. simpl.
  by apply CleanUp_times_done.
Qed.

Section Concurrent.
Variable w0 : world.
Hypothesis Hopen : Chan.closed (Close (w_sess w0)) = false.

Lemma pc_ok_idle (d d' : bool) (k k' : nat) (q : pc) :
  crit q = false -> (d = true -> d' = true) ->
  pc_ok d k q -> pc_ok d' k' q.
Proof. destruct q; simpl; try discriminate; auto. Qed.

(** Replacing the program counter of goroutine [i]. *)
Lemma pcs_update (l : list pc) (i : nat) (p p' : pc)
    (d d' m m' : bool) (k k' : nat) :
  l !! i = Some p ->
  (forall j q, l !! j = Some q -> pc_ok d k q) ->
  (forall j1 j2 q1 q2, l !! j1 = Some q1 -> l !! j2 = Some q2 ->
     crit q1 = true -> crit q2 = true -> j1 = j2) ->
  (m = true <-> exists j q, l !! j = Some q /\ crit q = true) ->
  pc_ok d' k' p' ->
  (d = true -> d' = true) ->
  (crit p = false -> d' = d /\ k' = k) ->
  m' = (if crit p' then true else if crit p then false else m) ->
  (crit p' = true -> crit p = false -> m = false) ->
  (forall j q, <[i := p']> l !! j = Some q -> pc_ok d' k' q) /\
  (forall j1 j2 q1 q2, <[i := p']> l !! j1 = Some q1 ->
     <[i := p']> l !! j2 = Some q2 ->
     crit q1 = true -> crit q2 = true -> j1 = j2) /\
  (m' = true <-> exists j q, <[i := p']> l !! j = Some q /\ crit q = true).
Proof using Type.
  intros Hi Hok Huniq Hm Hok' Hd Hsame Hm' Hacq.
  assert (Hlen : (i < length l)%nat) by (by eapply lookup_lt_Some).
  assert (Hno : m = false -> forall j q, l !! j = Some q -> crit q = false).
  { intros -> j q Hj. destruct (crit q) eqn:Hq; [|done].
    assert (false = true) by (apply Hm; eauto). done. }
  split; [|split].
  - intros j q Hj. apply list_lookup_insert_Some in Hj
      as [(-> & <- & _)|(Hne & Hj)]; [done|].
    destruct (crit p) eqn:Hp.
    + apply (pc_ok_idle d d' k k'); [|done|by eapply Hok].
      destruct (crit q) eqn:Hq; [|done].
      exfalso. apply Hne. by eapply (Huniq i j p q).
    + destruct (Hsame eq_refl) as [-> ->]. by eapply Hok.
  - intros j1 j2 q1 q2 H1 H2 Hc1 Hc2.
    apply list_lookup_insert_Some in H1 as [(-> & <- & _)|(Hne1 & H1)];
      apply list_lookup_insert_Some in H2 as [(-> & <- & _)|(Hne2 & H2)].
    + done.
    + destruct (crit p) eqn:Hp.
      * exfalso. apply Hne2. by eapply (Huniq j1 j2 p q2).
      * rewrite (Hno (Hacq Hc1 eq_refl) j2 q2 H2) in Hc2. done.
    + destruct (crit p) eqn:Hp.
      * exfalso. apply Hne1. by eapply (Huniq j2 j1 p q1).
      * rewrite (Hno (Hacq Hc2 eq_refl) j1 q1 H1) in Hc1. done.
    + by eapply Huniq.
  - subst m'. destruct (crit p') eqn:Hp'.
    + split; [|done]. intros _. exists i, p'. split; [|done].
      by apply list_lookup_insert_eq.
    + destruct (crit p) eqn:Hp.
      * split; [done|]. intros (j & q & Hj & Hq). exfalso.
        apply list_lookup_insert_Some in Hj as [(-> & <- & _)|(Hne & Hj)];
          [congruence|].
        apply Hne. by eapply (Huniq i j p q).
      * rewrite Hm. split; intros (j & q & Hj & Hq).
        -- exists j, q. split; [|done].
           rewrite list_lookup_insert_ne; [done|]. intros ->. congruence.
        -- apply list_lookup_insert_Some in Hj as [(-> & <- & _)|(Hne & Hj)];
             [congruence|eauto].
Qed.

Lemma measure_insert (l : list pc) (i : nat) (p p' : pc) :
  l !! i = Some p ->
  (sum_list (rank <$> <[i := p']> l) + rank p =
   sum_list (rank <$> l) + rank p')%nat.
Proof.
  revert i. induction l as [|q l IH]; intros [|i] Hi; try done.
  - injection Hi as ->. csimpl. lia.
  - csimpl in *. specialize (IH i Hi). lia.
Qed.
End Concurrent.

(** One goroutine moves from [p] to [p'], the world from [(k, d, m)] to
    [(k', d', m')]: what has to hold for the invariant to be kept. *)
Lemma inv_close (w0 : world) (l : list pc) (i : nat) (p p' : pc)
    (d d' m m' : bool) (k k' : nat) :
  l !! i = Some p ->
  (forall j q, l !! j = Some q -> pc_ok d k q) ->
  (forall j1 j2 q1 q2, l !! j1 = Some q1 -> l !! j2 = Some q2 ->
     crit q1 = true -> crit q2 = true -> j1 = j2) ->
  (m = true <-> exists j q, l !! j = Some q /\ crit q = true) ->
  (k' <= 4)%nat ->
  (d' = true -> k' = 4%nat) ->
  (m' = false -> d' = false -> k' = 0%nat) ->
  pc_ok d' k' p' ->
  (d = true -> d' = true) ->
  (crit p = false -> d' = d /\ k' = k) ->
  m' = (if crit p' then true else if crit p then false else m) ->
  (crit p' = true -> crit p = false -> m = false) ->
  (rank p' <= rank p)%nat ->
  let c' := mkConfig (with_once (mkOnce d' m') (torn_down k' w0))
              (<[i := p']> l) in
  inv w0 c' /\
  (measure c' <= sum_list (rank <$> l))%nat /\
  ((rank p' < rank p)%nat -> (measure c' < sum_list (rank <$> l))%nat).
Proof.
  intros Hi Hok Huniq Hm Hk' Hdk' Hmk' Hok' Hd Hsame Hm' Hacq Hrank c'.
  destruct (pcs_update l i p p' d d' m m' k k') as (H1 & H2 & H3); try done.
  pose proof (measure_insert l i p p' Hi) as Hsum.
  split; [|unfold measure; simpl; lia].
  exists k', d', m'. simpl. done.
Qed.

Local Ltac inv_side :=
  try done; try (simpl; lia); try (simpl; auto; fail);
  try (simpl; repeat split; first [done | lia]).

Lemma inv_step (w0 : world) (c : config) (i : nat) :
  Chan.closed (Close (w_sess w0)) = false ->
  inv w0 c ->
  exists c',
    step i c = Ok c' /\ inv w0 c' /\
    (measure c' <= measure c)%nat /\
    (forall p, pcs c !! i = Some p -> p <> PcRet ->
       (p = PcLock -> once_m (Closed (w_sess (cw c))) = false) ->
       (measure c' < measure c)%nat).
Proof.
  intros Hopen (k & d & m & Hw & Hk & Hdk & Hmk & Hok & Huniq & Hm).
  unfold step. destruct (pcs c !! i) as [p|] eqn:Hp.
  2: { exists c. split; [done|]. split; [by exists k, d, m|].
       split; [lia|]. intros ? ?. discriminate. }
  destruct c as [w l]. simpl in *. subst w.
  pose proof (Hok i p Hp) as Hokp.
  assert (Hheld : crit p = true -> m = true) by (intros ?; apply Hm; eauto).
  unfold measure. simpl pcs.
  destruct p; simpl in Hokp; cbn [thread_step with_once w_sess Closed set_Closed
    once_done once_m result_bind].
  - (* PcCall *)
    destruct d.
    + edestruct (inv_close w0 l i PcCall PcRet true true m m k k)
        as (HI & Hle & Hlt); inv_side.
      eexists. split; [reflexivity|]. split; [exact HI|]. split; [exact Hle|].
      intros p Hq _ _. apply Hlt. simpl. lia.
    + edestruct (inv_close w0 l i PcCall PcLock false false m m k k)
        as (HI & Hle & Hlt); inv_side.
      eexists. split; [reflexivity|]. split; [exact HI|]. split; [exact Hle|].
      intros p Hq _ _. apply Hlt. simpl. lia.
  - (* PcLock *)
    destruct m.
    + edestruct (inv_close w0 l i PcLock PcLock d d true true k k)
        as (HI & Hle & Hlt); inv_side.
        eexists. split; [reflexivity|]. split; [exact HI|]. split; [exact Hle|].
      intros p Hq _ Hfree. injection Hq as <-. specialize (Hfree eq_refl).
      discriminate.
    + edestruct (inv_close w0 l i PcLock PcCheck d d false true k k)
        as (HI & Hle & Hlt); inv_side.
      eexists. split; [reflexivity|]. split; [exact HI|]. split; [exact Hle|].
      intros p Hq _ _. apply Hlt. simpl. lia.
  - (* PcCheck *)
    rewrite (Hheld eq_refl) in *.
    destruct d.
    + edestruct (inv_close w0 l i PcCheck PcUnlock true true true true k k)
        as (HI & Hle & Hlt); inv_side.
      eexists. split; [reflexivity|]. split; [exact HI|]. split; [exact Hle|].
      intros p Hq _ _. apply Hlt. simpl. lia.
    + rewrite (Hokp eq_refl) in *.
      edestruct (inv_close w0 l i PcCheck (PcBody 0) false false true true 0 0)
        as (HI & Hle & Hlt); inv_side.
      eexists. split; [reflexivity|]. split; [exact HI|]. split; [exact Hle|].
      intros p Hq _ _. apply Hlt. simpl. lia.
  - (* PcBody *)
    destruct Hokp as (-> & -> & Hk4).
    rewrite (Hheld eq_refl) in *.
    destruct (cleanup_body !! k) as [st|] eqn:Hst.
    2: { apply lookup_ge_None in Hst. simpl in Hst. lia. }
    rewrite (stmt_torn_down _ w0 k st Hopen Hst).
    cbn [result_bind]. change (length cleanup_body) with 4%nat.
    destruct (Nat.ltb_spec (S k) 4) as [Hlt4|Hge4].
    + edestruct (inv_close w0 l i (PcBody k) (PcBody (S k))
                   false false true true k (S k))
        as (HI & Hle & Hlt); inv_side.
      eexists. split; [reflexivity|]. split; [exact HI|]. split; [exact Hle|].
      intros p Hq _ _. apply Hlt. simpl. lia.
    + edestruct (inv_close w0 l i (PcBody k) PcStore
                   false false true true k (S k))
        as (HI & Hle & Hlt); inv_side.
      eexists. split; [reflexivity|]. split; [exact HI|]. split; [exact Hle|].
      intros p Hq _ _. apply Hlt. simpl. lia.
  - (* PcStore *)
    destruct Hokp as (-> & ->).
    rewrite (Hheld eq_refl) in *.
    edestruct (inv_close w0 l i PcStore PcUnlock false true true true 4 4)
      as (HI & Hle & Hlt); inv_side.
    eexists. split; [reflexivity|]. split; [exact HI|]. split; [exact Hle|].
    intros p Hq _ _. apply Hlt. simpl. lia.
  - (* PcUnlock *)
    subst d. rewrite (Hheld eq_refl) in *.
    edestruct (inv_close w0 l i PcUnlock PcRet true true true false k k)
      as (HI & Hle & Hlt); inv_side.
    eexists. split; [reflexivity|]. split; [exact HI|]. split; [exact Hle|].
    intros p Hq _ _. apply Hlt. simpl. lia.
  - (* PcRet *)
    edestruct (inv_close w0 l i PcRet PcRet d d m m k k)
      as (HI & Hle & Hlt); inv_side.
    eexists. split; [reflexivity|]. split; [exact HI|]. split; [exact Hle|].
    intros p Hq Hne _. congruence.
Qed.

Lemma inv_init (n : nat) (w : world) : fresh w -> inv w (init n w).
Proof.
  intros Hf. exists 0%nat, false, false. simpl.
  rewrite torn_down_0, (fresh_with_once w Hf).
  assert (Hcall : forall i p, replicate n PcCall !! i = Some p -> p = PcCall).
  { intros i p Hi. by apply lookup_replicate in Hi as [-> _]. }
  repeat split; try done; try lia.
  - intros i p Hi. by rewrite (Hcall i p Hi).
  - intros i j p q Hi _ Hp. by rewrite (Hcall i p Hi) in Hp.
  - intros (i & p & Hi & Hp). by rewrite (Hcall i p Hi) in Hp.
Qed.

(** Under every schedule the invariant is kept, and no step panics. *)
Lemma inv_run (w0 : world) (sched : list nat) (c : config) :
  Chan.closed (Close (w_sess w0)) = false ->
  inv w0 c ->
  exists c', run sched c = Ok c' /\ inv w0 c'.
Proof.
  intros Hopen. revert c. induction sched as [|i sched IH]; intros c HI.
  - by exists c.
  - destruct (inv_step w0 c i Hopen HI) as (c1 & Hs & HI1 & _).
    destruct (IH c1 HI1) as (c' & Hr & HI').
    exists c'. simpl. rewrite Hs. done.
Qed.

(** As long as some call has not returned, some goroutine can move. *)
Lemma inv_progress (w0 : world) (c : config) :
  Chan.closed (Close (w_sess w0)) = false ->
  inv w0 c -> ~ all_returned c ->
  exists i c', step i c = Ok c' /\ inv w0 c' /\ (measure c' < measure c)%nat.
Proof.
  intros Hopen HI Hnot.
  assert (exists i p, pcs c !! i = Some p /\ p <> PcRet /\
            (p = PcLock -> once_m (Closed (w_sess (cw c))) = false))
    as (i & p & Hi & Hne & Hfree).
  { destruct HI as (k & d & m & Hw & _ & _ & _ & _ & _ & Hm).
    rewrite Hw. simpl. destruct m.
    - destruct (proj1 Hm eq_refl) as (i & p & Hi & Hp).
      exists i, p. split; [done|]. split; intros ->; discriminate.
    - apply not_Forall_Exists in Hnot; [|intros p; apply _].
      apply Exists_exists in Hnot as (p & Hin & Hp).
      apply list_elem_of_lookup in Hin as (i & Hi).
      exists i, p. done. }
  destruct (inv_step w0 c i Hopen HI) as (c' & Hs & HI' & _ & Hlt).
  exists i, c'. split; [done|]. split; [done|]. by eapply Hlt.
Qed.

(** From every state the calls reach, they can all return. *)
Lemma inv_complete (w0 : world) (c : config) :
  Chan.closed (Close (w_sess w0)) = false ->
  inv w0 c ->
  exists sched c', run sched c = Ok c' /\ all_returned c' /\ inv w0 c'.
Proof.
  intros Hopen. remember (measure c) as n eqn:Hn.
  revert c Hn. induction n as [n IH] using lt_wf_ind. intros c Hn HI.
  destruct (decide (Forall (fun p => p = PcRet) (pcs c))) as [Hall|Hnot].
  - exists [], c. done.
  - destruct (inv_progress w0 c Hopen HI Hnot) as (i & c1 & Hs & HI1 & Hlt).
    destruct (IH (measure c1) ltac:(lia) c1 eq_refl HI1)
      as (sched & c' & Hr & Hall & HI').
    exists (i :: sched), c'. simpl. rewrite Hs. done.
Qed.

(** When every call has returned, the world is the one a single call
    leaves. *)
Lemma inv_all_returned (w0 : world) (c : config) :
  (1 <= length (pcs c))%nat ->
  inv w0 c -> all_returned c ->
  cw c = with_once (mkOnce true false) (torn_down 4 w0).
Proof.
  intros Hlen (k & d & m & Hw & _ & Hdk & _ & Hok & _ & Hm) Hall.
  unfold all_returned in Hall. rewrite Forall_lookup in Hall.
  destruct (pcs c) as [|p l] eqn:Hl; [simpl in Hlen; lia|].
  assert (p = PcRet) as -> by (by apply (Hall 0%nat)).
  assert (d = true) as -> by (by apply (Hok 0%nat PcRet)).
  rewrite (Hdk eq_refl) in Hw.
  destruct m; [|done].
  destruct (proj1 Hm eq_refl) as (i & q & Hi & Hq).
  rewrite (Hall i q Hi) in Hq. discriminate.
Qed.

Lemma step_length (i : nat) (c c' : config) :
  step i c = Ok c' -> length (pcs c') = length (pcs c).
Proof.
  unfold step. destruct (pcs c !! i) as [p|]; [|by intros [= <-]].
  destruct (thread_step (cw c) p) as [[w' p']|]; [|done].
  simpl. intros [= <-]. simpl. by rewrite length_insert.
Qed.

Lemma run_length (sched : list nat) (c c' : config) :
  run sched c = Ok c' -> length (pcs c') = length (pcs c).
Proof.
  revert c. induction sched as [|i sched IH]; intros c; simpl.
  - by intros [= <-].
  - destruct (step i c) as [c1|] eqn:Hs; [|done]. simpl. intros Hr.
    rewrite (IH c1 Hr). by eapply step_length.
Qed.

(** C1. On a session whose teardown guard has not fired, [n >= 1]
    calls of [CleanUp] run the body exactly once: one after the other,
    the first call closes the signal, closes the connection, deletes
    the session from the tracker and logs, and every later call leaves
    the world as it is; concurrently, under every schedule, no step
    panics, the side effects performed at any moment are an initial
    part of one run of the body, the calls can always all return, and
    when they have, the world is the one a single call leaves. *)
Theorem CleanUp_exactly_once (n : nat) (w : world) :
  (1 <= n)%nat -> fresh w ->
  let w1 := with_once (mkOnce true false) (torn_down 4 w) in
  CleanUp w = Ok w1 /\
  CleanUp_times n w = Ok w1 /\
  CleanUp w1 = Ok w1 /\
  w_effects w1 = w_effects w ++ body_effects w /\
  (forall sched, exists c k,
     run sched (init n w) = Ok c /\
     (k <= 4)%nat /\
     w_effects (cw c) = w_effects w ++ take k (body_effects w) /\
     (all_returned c -> cw c = w1) /\
     (exists sched' c',
        run sched' c = Ok c' /\ all_returned c' /\ cw c' = w1)).
Proof.
  intros Hn Hf w1. pose proof Hf as [_ Hopen].
  split; [by apply CleanUp_fresh|].
  split; [by apply CleanUp_times_fresh|].
  split; [by apply CleanUp_done|].
  split; [reflexivity|].
  intros sched.
  destruct (inv_run w (sched) (init n w) Hopen (inv_init n w Hf))
    as (c & Hr & HI).
  assert (Hlen : (1 <= length (pcs c))%nat).
  { rewrite (run_length _ _ _ Hr). simpl. rewrite length_replicate. lia. }
  pose proof HI as (k & d & m & Hw & Hk & _).
  exists c, k. split; [done|]. split; [done|].
  split; [by rewrite Hw|].
  split; [by apply inv_all_returned|].
  destruct (inv_complete w c Hopen HI) as (sched' & c' & Hr' & Hall & HI').
  exists sched', c'. split; [done|]. split; [done|].
  apply inv_all_returned; [|done|done].
  by rewrite (run_length _ _ _ Hr').
Qed.

Lemma CleanUp_exactly_once_witness :
  let w1 := with_once (mkOnce true false) (torn_down 4 example_world) in
  CleanUp example_world = Ok w1 /\
  CleanUp_times 3 example_world = Ok w1 /\
  CleanUp w1 = Ok w1 /\
  w_effects w1 = w_effects example_world ++ body_effects example_world /\
  (forall sched, exists c k,
     run sched (init 3 example_world) = Ok c /\
     (k <= 4)%nat /\
     w_effects (cw c) =
       w_effects example_world ++ take k (body_effects example_world) /\
     (all_returned c -> cw c = w1) /\
     (exists sched' c',
        run sched' c = Ok c' /\ all_returned c' /\ cw c' = w1)).
Proof.
  apply (CleanUp_exactly_once 3 example_world).
  - lia.
  - split; reflexivity.
Defined.

(** ** SendMessage after the teardown *)

Lemma CleanUp_closes_signal (w w' : world) :
  fresh w -> CleanUp w = Ok w' ->
  Chan.closed (Close (w_sess w')) = true /\
  once_done (Closed (w_sess w')) = true.
Proof.
  intros Hf Hc. rewrite (CleanUp_fresh w Hf) in Hc. injection Hc as <-.
  done.
Qed.

Lemma session_at_idle (s : SSHConnection) (k : nat) :
  session_at env_idle s k = s.
Proof. induction k as [|k IH]; [done|]. simpl. exact IH. Qed.

(** The claim of C9 as it is worded fails for [block = true]: after the
    teardown of the example session, whose message channel has no
    consumer, the blocking send stays parked however long it is given. *)
Lemma SendMessage_blocking_after_CleanUp_parks :
  ~ (forall (w w' : world) (e : env) (message : string) (block : bool),
       fresh w -> CleanUp w = Ok w' ->
       exists fuel r,
         SendMessage fuel e (w_sess w') message block = Some r).
Proof.
  intros Hclaim.
  assert (Hf : fresh example_world) by (split; reflexivity).
  destruct (Hclaim example_world _ env_idle "hello" true Hf
              (CleanUp_fresh example_world Hf)) as (fuel & r & Hr).
  unfold SendMessage in Hr.
  set (s := w_sess _) in Hr.
  change s with (session_at env_idle s 0) in Hr.
  rewrite send_block_parked in Hr; [discriminate|].
  intros k _. rewrite session_at_idle. reflexivity.
Qed.

(** C9 (amended). Once [CleanUp] has run its body, the close signal is
    closed, and on every session whose close signal is in that state a
    non-blocking [SendMessage] ends at its first look, without sleeping:
    it returns cancelled, or hands the message to the channel if the
    channel can take it and [select] takes that case. A blocking
    [SendMessage] does not look at the close signal: it returns exactly
    when the message channel becomes able to take the message, and is
    parked until then. *)
Theorem SendMessage_after_teardown (w w' : world) (e : env)
    (s : SSHConnection) (message : string) (fuel : nat) :
  fresh w -> CleanUp w = Ok w' ->
  Close s = Close (w_sess w') ->
  Chan.recv_ready (Close s) = true /\
  (exists r,
     SendMessage fuel e s message false = Some r /\
     (r = Ok (Cancelled, s, [EvSelect 0]) \/
      r = do_send s message [EvSelect 0])) /\
  (is_Some (SendMessage fuel e s message true) <->
   exists k, (k < fuel)%nat /\
     Chan.send_ready (Messages (session_at e s k)) = true).
Proof.
  intros Hf Hc Hs.
  destruct (CleanUp_closes_signal w w' Hf Hc) as [Hclosed _].
  assert (Hready : Chan.recv_ready (Close s) = true).
  { unfold Chan.recv_ready. by rewrite Hs, Hclosed. }
  split; [done|]. split.
  - unfold SendMessage. simpl. unfold select. rewrite Hready.
    destruct (Chan.send_ready (Messages s)); [destruct (env_pick e 0)|];
      eauto.
  - unfold SendMessage.
    change s with (session_at e s 0) at 1.
    rewrite send_block_returns. split.
    + intros (k & Hk & Hr). exists k. split; [lia|done].
    + intros (k & Hk & Hr). exists k. split; [lia|done].
Qed.

Lemma SendMessage_after_teardown_witness :
  let s := w_sess (with_once (mkOnce true false) (torn_down 4 example_world)) in
  Chan.recv_ready (Close s) = true /\
  (exists r,
     SendMessage 7 env_idle s "hello" false = Some r /\
     (r = Ok (Cancelled, s, [EvSelect 0]) \/
      r = do_send s "hello" [EvSelect 0])) /\
  (is_Some (SendMessage 7 env_idle s "hello" true) <->
   exists k, (k < 7)%nat /\
     Chan.send_ready (Messages (session_at env_idle s k)) = true).
Proof.
  apply (SendMessage_after_teardown example_world
           (with_once (mkOnce true false) (torn_down 4 example_world))
           env_idle _ "hello" 7).
  - split; reflexivity.
  - reflexivity.
  - reflexivity.
Defined.

(** ** The tee *)

Section TeeFacts.
Context {R : Type} `{io_Reader R}.

(** A read through the tee is the read of the wrapped reader, with
    the bytes it returned appended to the buffer. *)
Lemma TeeConn_Read_unfold (conn : TeeConn R) (n : nat) :
  TeeConn.Read conn n =
  let '(r', (bs, err)) := io_Read (Reader conn) n in
  (mkTeeConn r' (Buffer_ conn ++ bs), (bs, err)).
Proof.
  unfold TeeConn.Read, teeReader_Read. simpl.
  destruct (io_Read (Reader conn) n) as [r' [bs err]].
  destruct bs as [|b bs]; simpl; [|done].
  by rewrite app_nil_r.
Qed.

Lemma read_all_unfold (conn : TeeConn R) (sizes : list nat) :
  read_all conn sizes =
  let '(r', results) := source_reads (Reader conn) sizes in
  (mkTeeConn r' (Buffer_ conn ++ bytes_of results), results).
Proof.
  revert conn. induction sizes as [|n sizes IH]; intros conn.
  - simpl. unfold bytes_of. simpl. rewrite app_nil_r. by destruct conn.
  - simpl. rewrite TeeConn_Read_unfold.
    destruct (io_Read (Reader conn) n) as [r1 [bs err]].
    rewrite IH. simpl.
    destruct (source_reads r1 sizes) as [r2 results].
    unfold bytes_of. simpl. by rewrite app_assoc.
Qed.

(** What holds of the connection and the log before a handshake and
    is kept by each read and each callback holds after it. *)
Lemma Handshake_invariant (I : TeeConn R -> hs_log -> Prop) :
  (forall conn lg n conn' bs err,
     I conn lg -> TeeConn.Read conn n = (conn', (bs, err)) ->
     I conn' (mkHsLog (hs_reads lg ++ [bs]) (hs_hellos lg))) ->
  (forall conn lg hello,
     I conn lg -> I conn (mkHsLog (hs_reads lg) (hs_hellos lg ++ [hello]))) ->
  forall h conn tlsHello lg conn' tlsHello' lg' err,
    I conn lg ->
    Handshake h conn tlsHello lg = (conn', tlsHello', lg', err) ->
    I conn' lg'.
Proof.
  intros Hread Hcall h.
  induction h as [n k IH|p k IH|hello k IH|e];
    intros conn tlsHello lg conn' tlsHello' lg' err HI Hrun;
    simpl in Hrun.
  - destruct (TeeConn.Read conn n) as [conn1 [bs err1]] eqn:Hr.
    eapply IH; [|exact Hrun]. by eapply Hread.
  - eapply IH; [|exact Hrun]. done.
  - eapply IH; [|exact Hrun]. by apply Hcall.
  - injection Hrun as <- <- <- <-. done.
Qed.

End TeeFacts.

Lemma stream_Read_keeps (s : stream) (n : nat) :
  (io_Read s n).2.1 ++ rest (io_Read s n).1 = rest s.
Proof.
  unfold io_Read, stream_Reader.
  destruct (rest s) as [|b l] eqn:Hr; simpl; [by rewrite drop_nil|].
  apply take_drop.
Qed.

Lemma source_reads_traced {R} `{io_Reader R} (t t' : traced R)
    (sizes : list nat) (results : list (list byte * option error)) :
  source_reads t sizes = (t', results) ->
  produced t' = produced t ++ bytes_of results.
Proof.
  revert t t' results.
  induction sizes as [|n sizes IH]; intros t t' results Hs; simpl in Hs.
  - injection Hs as <- <-. unfold bytes_of. simpl. by rewrite app_nil_r.
  - unfold io_Read at 1, traced_Reader in Hs.
    destruct (io_Read (inner t) n) as [r1 [bs err]].
    destruct (source_reads _ sizes) as [r2 results2] eqn:Hs2.
    injection Hs as <- <-.
    rewrite (IH _ _ _ Hs2). unfold bytes_of. csimpl. by rewrite <- app_assoc.
Qed.

Lemma source_reads_stream (s s' : stream) (sizes : list nat)
    (results : list (list byte * option error)) :
  source_reads s sizes = (s', results) ->
  bytes_of results ++ rest s' = rest s.
Proof.
  revert s s' results.
  induction sizes as [|n sizes IH]; intros s s' results Hs; simpl in Hs.
  - by injection Hs as <- <-.
  - pose proof (stream_Read_keeps s n) as Hk.
    destruct (io_Read s n) as [s1 [bs err]]. simpl in Hk.
    destruct (source_reads s1 sizes) as [s2 results2] eqn:Hs2.
    injection Hs as <- <-.
    unfold bytes_of in *. csimpl. by rewrite <- app_assoc, (IH _ _ _ Hs2).
Qed.

(** C4. Reading through a [TeeConn] made by [NewTeeConn], in calls of
    any sizes: each call returns what the same call on the wrapped
    reader returns and leaves that reader in the same state; the buffer
    [GetBuffer] gives is the concatenation of the bytes returned to the
    caller; it is the sequence of bytes the wrapped reader has produced;
    and for a byte stream as the source, these bytes followed by what
    is left of the stream are the input. *)
Theorem TeeConn_fidelity {R} `{io_Reader R} (reader : R) (s : stream)
    (sizes : list nat) :
  (let run := read_all (NewTeeConn reader) sizes in
   let src := source_reads reader sizes in
   run.2 = src.2 /\ Reader run.1 = src.1 /\
   TeeConn.GetBuffer run.1 = bytes_of run.2) /\
  (let run := read_all (NewTeeConn (mkTraced reader [])) sizes in
   bytes_of run.2 = TeeConn.GetBuffer run.1 /\
   TeeConn.GetBuffer run.1 = produced (Reader run.1)) /\
  (let run := read_all (NewTeeConn s) sizes in
   bytes_of run.2 = TeeConn.GetBuffer run.1 /\
   TeeConn.GetBuffer run.1 ++ rest (Reader run.1) = rest s).
Proof.
  split; [|split]; cbv zeta; rewrite read_all_unfold; simpl.
  - by destruct (source_reads reader sizes) as [r' results].
  - destruct (source_reads _ sizes) as [r' results] eqn:Hs.
    apply source_reads_traced in Hs. simpl in *. done.
  - destruct (source_reads s sizes) as [r' results] eqn:Hs.
    apply source_reads_stream in Hs. simpl in *. done.
Qed.

(** C10. When the wrapped reader returns bytes together with an error
    in one call, [TeeConn.Read] appends these bytes to the buffer and
    returns them with the error; and after reads of any sizes, with or
    without errors, the buffer holds every byte handed to the caller. *)
Theorem TeeConn_Read_captures_with_error {R} `{io_Reader R}
    (conn : TeeConn R) (n : nat) (r' : R) (bs : list byte) (e : error)
    (sizes : list nat) :
  io_Read (Reader conn) n = (r', (bs, Some e)) ->
  TeeConn.Read conn n = (mkTeeConn r' (Buffer_ conn ++ bs), (bs, Some e)) /\
  TeeConn.GetBuffer (read_all conn sizes).1 =
    TeeConn.GetBuffer conn ++ bytes_of (read_all conn sizes).2.
Proof.
  intros Hr. split.
  - by rewrite TeeConn_Read_unfold, Hr.
  - rewrite read_all_unfold.
    by destruct (source_reads (Reader conn) sizes) as [r2 results].
Qed.

Lemma TeeConn_Read_captures_with_error_witness :
  TeeConn.Read (NewTeeConn example_eager_stream) 8 =
    (mkTeeConn (mkStream [] [] (ErrOther "connection reset by peer") true)
       ([] ++ [Byte.x01; Byte.x02; Byte.x03]),
     ([Byte.x01; Byte.x02; Byte.x03],
      Some (ErrOther "connection reset by peer"))) /\
  TeeConn.GetBuffer (read_all (NewTeeConn example_eager_stream) [2; 8]%nat).1 =
    TeeConn.GetBuffer (NewTeeConn example_eager_stream) ++
    bytes_of (read_all (NewTeeConn example_eager_stream) [2; 8]%nat).2.
Proof.
  apply (TeeConn_Read_captures_with_error (NewTeeConn example_eager_stream) 8
           (mkStream [] [] (ErrOther "connection reset by peer") true)
           [Byte.x01; Byte.x02; Byte.x03]
           (ErrOther "connection reset by peer") [2; 8]%nat).
  reflexivity.
Defined.

(** ** The TLS hello *)

Section PeakFacts.
Context {R : Type} `{io_Reader R}.

Lemma PeakTLSHello_buffer_is_reads (h : handshake) (reader : R) :
  peek_buffer (PeakTLSHello h reader) =
  concat (hs_reads (peek_log (PeakTLSHello h reader))).
Proof.
  unfold PeakTLSHello.
  destruct (Handshake h (NewTeeConn reader) None (mkHsLog [] []))
    as [[[conn' hello'] lg'] err] eqn:Hrun. simpl.
  apply (Handshake_invariant
           (fun conn lg => Buffer_ conn = concat (hs_reads lg)))
    in Hrun; [done| | |done].
  - intros conn lg n conn1 bs e HI Hr. rewrite TeeConn_Read_unfold in Hr.
    destruct (io_Read (Reader conn) n) as [r1 [bs1 e1]].
    injection Hr as <- <- <-. simpl.
    rewrite concat_app, HI. simpl. by rewrite app_nil_r.
  - done.
Qed.

Lemma PeakTLSHello_buffer_is_produced (h : handshake) (reader : R) :
  peek_buffer (PeakTLSHello h (mkTraced reader [])) =
  produced (peek_reader (PeakTLSHello h (mkTraced reader []))).
Proof.
  unfold PeakTLSHello.
  destruct (Handshake h (NewTeeConn (mkTraced reader [])) None
              (mkHsLog [] []))
    as [[[conn' hello'] lg'] err] eqn:Hrun. simpl.
  apply (Handshake_invariant
           (fun conn lg => Buffer_ conn = produced (Reader conn)))
    in Hrun; [done| | |done].
  - intros conn lg n conn1 bs e HI Hr. rewrite TeeConn_Read_unfold in Hr.
    unfold io_Read at 1, traced_Reader in Hr.
    destruct (io_Read (inner (Reader conn)) n) as [r1 [bs1 e1]].
    injection Hr as <- <- <-. simpl. by rewrite HI.
  - done.
Qed.
End PeakFacts.

Lemma PeakTLSHello_stream_replay (h : handshake) (s : stream) :
  peek_buffer (PeakTLSHello h s) ++ rest (peek_reader (PeakTLSHello h s)) =
  rest s.
Proof.
  unfold PeakTLSHello.
  destruct (Handshake h (NewTeeConn s) None (mkHsLog [] []))
    as [[[conn' hello'] lg'] err] eqn:Hrun. simpl.
  apply (Handshake_invariant
           (fun conn lg => Buffer_ conn ++ rest (Reader conn) = rest s))
    in Hrun; [done| | |done].
  - intros conn lg n conn1 bs e HI Hr. rewrite TeeConn_Read_unfold in Hr.
    pose proof (stream_Read_keeps (Reader conn) n) as Hk.
    destruct (io_Read (Reader conn) n) as [r1 [bs1 e1]].
    injection Hr as <- <- <-. simpl in *.
    by rewrite <- app_assoc, Hk.
  - done.
Qed.

(** C3. Against every behaviour of the handshake and for every source,
    the buffer [PeakTLSHello] returns is the concatenation of the bytes
    the handshake's reads were given, and it is the sequence of bytes
    the source has produced during the call; for a byte stream as the
    source, the buffer followed by what is left of the stream is the
    stream as it was. *)
Theorem PeakTLSHello_captures_exactly {R} `{io_Reader R} (h : handshake)
    (reader : R) (s : stream) :
  peek_buffer (PeakTLSHello h reader) =
    concat (hs_reads (peek_log (PeakTLSHello h reader))) /\
  peek_buffer (PeakTLSHello h (mkTraced reader [])) =
    produced (peek_reader (PeakTLSHello h (mkTraced reader []))) /\
  peek_buffer (PeakTLSHello h s) ++ rest (peek_reader (PeakTLSHello h s)) =
    rest s.
Proof.
  split; [apply PeakTLSHello_buffer_is_reads|].
  split; [apply PeakTLSHello_buffer_is_produced|].
  apply PeakTLSHello_stream_replay.
Qed.



(** ** The idle timeout *)

(** C7. [Read] on an [IdleTimeoutConn] first sets the read deadline of
    the wrapped connection to the current time plus the configured idle
    timeout and then reads from it; when setting the deadline returns
    an error, no read is made and the call returns no bytes and that
    error. [Write] does the same with the write deadline, returning 0
    and the error. *)
Theorem IdleTimeoutConn_deadline_first {W} `{Net W} (cfg : viper)
    (i : IdleTimeoutConn) (n : nat) (p : list byte) (w : W)
    (tr : list call) :
  let c := Conn i in
  let w1 := (time_Now w).1 in
  let t := Time_Add (time_Now w).2 (idle_connection_timeout cfg) in
  IdleTimeoutConn.Read cfg i n (w, tr) =
    (let '(w2, e) := net_SetReadDeadline c w1 t in
     match e with
     | Some err =>
         ((w2, tr ++ [CallNow; CallSetReadDeadline c t]), ([], Some err))
     | None =>
         let '(w3, r) := net_Read c w2 n in
         ((w3, tr ++ [CallNow; CallSetReadDeadline c t; CallRead c n]), r)
     end) /\
  IdleTimeoutConn.Write cfg i p (w, tr) =
    (let '(w2, e) := net_SetWriteDeadline c w1 t in
     match e with
     | Some err =>
         ((w2, tr ++ [CallNow; CallSetWriteDeadline c t]), (0, Some err))
     | None =>
         let '(w3, r) := net_Write c w2 p in
         ((w3, tr ++ [CallNow; CallSetWriteDeadline c t; CallWrite c p]), r)
     end).
Proof.
  intros c w1 t. subst c w1 t.
  unfold IdleTimeoutConn.Read, IdleTimeoutConn.Write, bind, ret, do_Now,
    do_SetReadDeadline, do_SetWriteDeadline, do_Read, do_Write.
  destruct (time_Now w) as [w1 now]. simpl.
  split.
  - destruct (net_SetReadDeadline (Conn i) w1 _) as [w2 [err|]].
    + by rewrite <- app_assoc.
    + destruct (net_Read (Conn i) w2 n) as [w3 r].
      by rewrite <- !app_assoc.
  - destruct (net_SetWriteDeadline (Conn i) w1 _) as [w2 [err|]].
    + by rewrite <- app_assoc.
    + destruct (net_Write (Conn i) w2 p) as [w3 r].
      by rewrite <- !app_assoc.
Qed.

(** On the example network the deadline is refused and nothing is read. *)
Example IdleTimeoutConn_Read_refused :
  IdleTimeoutConn.Read example_viper (mkIdleTimeoutConn 0%nat) 16%nat
    (example_net_no_deadline, []) =
  ((mkMockNet (mn_conns example_net_no_deadline) 1001,
    [CallNow; CallSetReadDeadline 0%nat (1000 + 30000 * Millisecond)]),
   ([], Some (ErrOther "set deadline: not supported"))).
Proof. reflexivity. Qed.

(** ** The relay *)

Section RelayFacts.
Context {W : Type} `{Net W}.
Variable cfg : viper.

Lemma log_copy_error_unfold (what : string) (err : option error)
    (st : W * list call) :
  log_copy_error cfg what err st = ((st.1, st.2 ++ log_calls cfg what err), tt).
Proof.
  destruct st as [w tr]. unfold log_copy_error, log_calls, do_Log, ret.
  destruct err as [e|]; [destruct (debug cfg)|]; simpl;
    by rewrite ?app_nil_r.
Qed.

Lemma closeBoth_unfold (writer reader : conn_id) (st : W * list call) :
  closeBoth writer reader st =
  (((net_Close writer (net_Close reader st.1).1).1,
    st.2 ++ [CallClose reader; CallClose writer]), tt).
Proof.
  destruct st as [w tr]. unfold closeBoth, bind, ret, do_Close. simpl.
  destruct (net_Close reader w) as [w1 e1]. simpl.
  destruct (net_Close writer w1) as [w2 e2]. simpl.
  by rewrite <- app_assoc.
Qed.

Lemma copyToWriter_unfold (fuel : nat) (writer reader : conn_id)
    (st : W * list call) :
  copyToWriter cfg fuel writer reader st =
  finish cfg "Error copying to writer:" writer reader
    (io_Copy cfg fuel (tcon cfg writer) (RWConn reader) 0 st).
Proof.
  unfold copyToWriter, bind at 1.
  destruct (io_Copy cfg fuel _ _ 0 st) as [[w1 tr1] [[n err]|]];
    [|reflexivity].
  unfold bind. rewrite log_copy_error_unfold, closeBoth_unfold. simpl.
  by rewrite <- app_assoc.
Qed.

Lemma copyToReader_unfold (fuel : nat) (writer reader : conn_id)
    (st : W * list call) :
  copyToReader cfg fuel writer reader st =
  finish cfg "Error copying to reader:" writer reader
    (io_Copy cfg fuel (RWConn reader) (tcon cfg writer) 0 st).
Proof.
  unfold copyToReader, bind at 1.
  destruct (io_Copy cfg fuel _ _ 0 st) as [[w1 tr1] [[n err]|]];
    [|reflexivity].
  unfold bind. rewrite log_copy_error_unfold, closeBoth_unfold. simpl.
  by rewrite <- app_assoc.
Qed.

(** A read that returns no bytes and an error ends the copy at once. *)
Lemma io_Copy_read_error (fuel : nat) (dst : ReadWriter) (reader : conn_id)
    (written : Z) (w w1 : W) (tr : list call) (e : error) :
  net_Read reader w copy_buffer_size = (w1, ([], Some e)) ->
  io_Copy cfg (S fuel) dst (RWConn reader) written (w, tr) =
  ((w1, tr ++ [CallRead reader copy_buffer_size]),
   Some (written, match e with EOF => None | _ => Some e end)).
Proof.
  intros Hr. cbn [io_Copy]. unfold bind at 1.
  cbn [rw_Read]. unfold do_Read. rewrite Hr. cbn [length Z.of_nat Z.ltb
    Z.compare].
  destruct e; reflexivity.
Qed.
End RelayFacts.

(** C6. Whenever the copy of a direction of [CopyBoth] comes back, with
    [nil] after a clean end of its source or with an error, that
    direction calls [Close] on the upstream and then on the downstream,
    whatever these calls return, after logging the error if there is
    one and [debug] is set; [CopyBoth] itself is the direction to the
    writer; and when the upstream's next read returns no bytes and an
    error, end of file or other, that direction returns at once, both
    connections closed. *)
Theorem CopyBoth_closes_both {W} `{Net W} (cfg : viper) (d : direction)
    (fuel : nat) (writer reader : conn_id) (st : W * list call)
    (w1 : W) (tr1 : list call) (n : Z) (err : option error) :
  copy_of cfg d fuel writer reader st = ((w1, tr1), Some (n, err)) ->
  run_direction cfg d fuel writer reader st =
    (((net_Close writer (net_Close reader w1).1).1,
      tr1 ++ log_calls cfg (what_of d) err ++
        [CallClose reader; CallClose writer]),
     Some tt) /\
  CopyBoth cfg fuel writer reader st =
    run_direction cfg ToWriter fuel writer reader st /\
  (forall (w w' : W) (tr : list call) (e : error) (fuel' : nat),
     net_Read reader w copy_buffer_size = (w', ([], Some e)) ->
     CopyBoth cfg (S fuel') writer reader (w, tr) =
       (((net_Close writer (net_Close reader w').1).1,
         tr ++ [CallRead reader copy_buffer_size] ++
           log_calls cfg (what_of ToWriter)
             (match e with EOF => None | _ => Some e end) ++
           [CallClose reader; CallClose writer]),
        Some tt)).
Proof.
  intros Hcopy. split; [|split; [reflexivity|]].
  - destruct d; simpl in *.
    + by rewrite copyToReader_unfold, Hcopy.
    + by rewrite copyToWriter_unfold, Hcopy.
  - intros w w' tr e fuel' Hr. unfold CopyBoth.
    rewrite copyToWriter_unfold.
    rewrite (io_Copy_read_error cfg fuel' _ reader 0 w w' tr e Hr).
    simpl. by rewrite <- app_assoc.
Qed.

Lemma CopyBoth_closes_both_witness :
  let w1 :=
    mkMockNet
      [mkMockConn [] (ErrOther "i/o timeout") [Byte.x68; Byte.x69] false
         None None (Some (1000 + 30000 * Millisecond));
       mkMockConn [] EOF [] false None None None]
      1001 in
  let tr1 :=
    [CallRead 1 copy_buffer_size; CallNow;
     CallSetWriteDeadline 0 (1000 + 30000 * Millisecond);
     CallWrite 0 [Byte.x68; Byte.x69]; CallRead 1 copy_buffer_size] in
  run_direction example_viper ToWriter 2 0%nat 1%nat (example_net, []) =
    (((net_Close 0%nat (net_Close 1%nat w1).1).1,
      tr1 ++ log_calls example_viper (what_of ToWriter) None ++
        [CallClose 1; CallClose 0]),
     Some tt) /\
  CopyBoth example_viper 2 0%nat 1%nat (example_net, []) =
    run_direction example_viper ToWriter 2 0%nat 1%nat (example_net, []) /\
  (forall (w w' : mock_net) (tr : list call) (e : error) (fuel' : nat),
     net_Read 1%nat w copy_buffer_size = (w', ([], Some e)) ->
     CopyBoth example_viper (S fuel') 0%nat 1%nat (w, tr) =
       (((net_Close 0%nat (net_Close 1%nat w').1).1,
         tr ++ [CallRead 1 copy_buffer_size] ++
           log_calls example_viper (what_of ToWriter)
             (match e with EOF => None | _ => Some e end) ++
           [CallClose 1; CallClose 0]),
        Some tt)).
Proof.
  intros w1 tr1.
  apply (CopyBoth_closes_both example_viper ToWriter 2 0%nat 1%nat
           (example_net, []) w1 tr1 2 None).
  reflexivity.
Defined.

(** Both directions one after the other on the example network: the
    direction to the writer ends with the upstream, and closes both
    connections; the direction to the reader then fails on the closed
    downstream, logs, and closes both again, the errors of the second
    [Close] calls going unnoticed. *)
Example CopyBoth_double_close :
  let net1 :=
    mkMockNet
      [mkMockConn [] (ErrOther "i/o timeout") [Byte.x68; Byte.x69] true
         None None (Some (1000 + 30000 * Millisecond));
       mkMockConn [] EOF [] true None None None]
      1001 in
  let tr1 :=
    [CallRead 1 copy_buffer_size; CallNow;
     CallSetWriteDeadline 0 (1000 + 30000 * Millisecond);
     CallWrite 0 [Byte.x68; Byte.x69]; CallRead 1 copy_buffer_size;
     CallClose 1; CallClose 0] in
  CopyBoth example_viper 2 0%nat 1%nat (example_net, []) =
    ((net1, tr1), Some tt) /\
  net_Close 1%nat net1 = (net1, Some err_closed) /\
  net_Close 0%nat net1 = (net1, Some err_closed) /\
  copyToReader example_viper 2 0%nat 1%nat (net1, tr1) =
    ((mkMockNet (mn_conns net1) 1002,
      tr1 ++ [CallNow; CallSetReadDeadline 0 (1001 + 30000 * Millisecond);
              CallLog "Error copying to reader:" err_closed;
              CallClose 1; CallClose 0]),
     Some tt).
Proof. repeat split. Qed.

(** An upstream already at its end: the relay returns after one read,
    nothing is logged, both connections are closed. *)
Example CopyBoth_clean_eof :
  CopyBoth example_viper 1 0%nat 1%nat (example_net_eof, []) =
    ((mkMockNet
        [mkMockConn [] (ErrOther "i/o timeout") [] true None None None;
         mkMockConn [] EOF [] true None None None]
        1000,
      [CallRead 1 copy_buffer_size; CallClose 1; CallClose 0]),
     Some tt).
Proof. reflexivity. Qed.

(** * Further properties *)

(** ** SendMessage, in every environment *)

Lemma attempts_counts (i k : nat) :
  length (List.filter is_select (attempts i k)) = k /\
  List.filter is_sleep (attempts i k) =
    replicate k (EvSleep (100 * Millisecond)) /\
  List.filter is_send (attempts i k) = [].
Proof.
  revert i. induction k as [|k IH]; intros i; [done|].
  rewrite attempts_cons. simpl.
  destruct (IH (S i)) as (-> & -> & ->). done.
Qed.

(** Either the first [n] looks all find nothing ready, or there is a
    first one that finds something. *)
Lemma first_ready_look (e : env) (s : SSHConnection) (n : nat) :
  (forall k, (k < n)%nat ->
     select (session_at e s k) (env_pick e k) = CaseDefault) \/
  (exists k, (k < n)%nat /\
     select (session_at e s k) (env_pick e k) <> CaseDefault /\
     forall j, (j < k)%nat ->
       select (session_at e s j) (env_pick e j) = CaseDefault).
Proof.
  induction n as [|n [IH|(k & Hk & Hne & Hbefore)]].
  - left. intros k Hk. lia.
  - destruct (select (session_at e s n) (env_pick e n)) eqn:Hn.
    + right. exists n. split; [lia|]. split; [congruence|].
      intros j Hj. by apply IH.
    + right. exists n. split; [lia|]. split; [congruence|].
      intros j Hj. by apply IH.
    + left. intros k Hk. destruct (decide (k = n)) as [->|]; [done|].
      apply IH. lia.
  - right. exists k. split; [lia|done].
Qed.

(** What a non-blocking call comes to: dropped after five idle looks,
    or decided by the first look that finds something ready. *)
Lemma send_loop_outcome (e : env) (s : SSHConnection) (message : string) :
  send_loop 5 0 e s message [] =
    Ok (Dropped, session_at e s 5, attempts 0 5) \/
  exists k, (k < 5)%nat /\
    (send_loop 5 0 e s message [] =
       Ok (Cancelled, session_at e s k, attempts 0 k ++ [EvSelect k]) \/
     send_loop 5 0 e s message [] =
       do_send (session_at e s k) message (attempts 0 k ++ [EvSelect k])).
Proof.
  destruct (first_ready_look e s 5) as [Hidle|(k & Hk & Hne & Hbefore)].
  - left. by rewrite send_loop_dropped.
  - right. exists k. split; [done|].
    rewrite (send_loop_first_ready e s message k Hk Hbefore).
    destruct (select (session_at e s k) (env_pick e k)); [by left|by right|done].
Qed.


Lemma send_block_first_ready (e : env) (s : SSHConnection) (message : string)
    (fuel i k : nat) :
  (i <= k < i + fuel)%nat ->
  (forall j, (i <= j < k)%nat ->
     Chan.send_ready (Messages (session_at e s j)) = false) ->
  Chan.send_ready (Messages (session_at e s k)) = true ->
  send_block fuel i e (session_at e s i) message =
    Some (do_send (session_at e s k) message []).
Proof.
  revert i. induction fuel as [|fuel IH]; intros i Hk Hbefore Hready; [lia|].
  simpl. destruct (decide (k = i)) as [->|Hne].
  - by rewrite Hready.
  - rewrite (Hbefore i) by lia.
    change (env_step e i (session_at e s i)) with (session_at e s (S i)).
    apply IH; [lia| |done]. intros j Hj. apply Hbefore. lia.
Qed.

(** An open channel that can take a message takes it: the channel gains
    exactly this message, handed to a parked receiver if there is one
    and buffered otherwise. *)
Lemma Chan_send_open (c : chan string) (message : string) :
  Chan.closed c = false ->
  exists c',
    Chan.send c message = Ok c' /\
    Chan.closed c' = false /\
    Chan.cap c' = Chan.cap c /\
    (if Nat.ltb 0 (Chan.recvq c)
     then Chan.handed c' = Chan.handed c ++ [message] /\
          Chan.buf c' = Chan.buf c /\
          Chan.recvq c' = Nat.pred (Chan.recvq c)
     else Chan.buf c' = Chan.buf c ++ [message] /\
          Chan.handed c' = Chan.handed c /\
          Chan.recvq c' = Chan.recvq c).
Proof.
  intros Hopen. unfold Chan.send. rewrite Hopen.
  destruct (Nat.ltb 0 (Chan.recvq c)); eexists; (split; [reflexivity|]); done.
Qed.

(** X1. A blocking [SendMessage] never drops the message: parked while
    the channel cannot take it, it returns at the first look at which
    the open channel can, having handed over the message exactly once,
    whether or not the close signal has fired by then. *)
Theorem SendMessage_blocking_delivers (fuel : nat) (e : env)
    (s : SSHConnection) (message : string) (k : nat) :
  (k < fuel)%nat ->
  (forall j, (j < k)%nat ->
     Chan.send_ready (Messages (session_at e s j)) = false) ->
  Chan.send_ready (Messages (session_at e s k)) = true ->
  Chan.closed (Messages (session_at e s k)) = false ->
  let sk := session_at e s k in
  (forall fuel', (fuel' <= k)%nat ->
     SendMessage fuel' e s message true = None) /\
  exists c',
    SendMessage fuel e s message true =
      Some (Ok (Sent, set_Messages sk c', [EvSend message])) /\
    Chan.send (Messages sk) message = Ok c' /\
    (if Nat.ltb 0 (Chan.recvq (Messages sk))
     then Chan.handed c' = Chan.handed (Messages sk) ++ [message] /\
          Chan.buf c' = Chan.buf (Messages sk)
     else Chan.buf c' = Chan.buf (Messages sk) ++ [message] /\
          Chan.handed c' = Chan.handed (Messages sk)).
Proof.
  intros Hk Hbefore Hready Hopen sk. split.
  - intros fuel' Hf. unfold SendMessage.
    change s with (session_at e s 0) at 1.
    apply send_block_parked. intros j Hj. apply Hbefore. lia.
  - destruct (Chan_send_open (Messages sk) message Hopen)
      as (c' & Hsend & _ & _ & Hc').
    exists c'. split; [|split; [done|]].
    + unfold SendMessage.
      change s with (session_at e s 0) at 1.
      rewrite (send_block_first_ready e s message fuel 0 k);
        [|lia|intros j Hj; apply Hbefore; lia|done].
      unfold do_send. fold sk. by rewrite Hsend.
    + destruct (Nat.ltb 0 (Chan.recvq (Messages sk)));
        destruct Hc' as (? & ? & _); done.
Qed.

Lemma SendMessage_blocking_delivers_witness :
  let sk := session_at env_consumer example_session 1 in
  (forall fuel', (fuel' <= 1)%nat ->
     SendMessage fuel' env_consumer example_session "hello" true = None) /\
  exists c',
    SendMessage 3 env_consumer example_session "hello" true =
      Some (Ok (Sent, set_Messages sk c', [EvSend "hello"])) /\
    Chan.send (Messages sk) "hello" = Ok c' /\
    (if Nat.ltb 0 (Chan.recvq (Messages sk))
     then Chan.handed c' = Chan.handed (Messages sk) ++ ["hello"] /\
          Chan.buf c' = Chan.buf (Messages sk)
     else Chan.buf c' = Chan.buf (Messages sk) ++ ["hello"] /\
          Chan.handed c' = Chan.handed (Messages sk)).
Proof.
  apply (SendMessage_blocking_delivers 3 env_consumer example_session
           "hello" 1).
  - lia.
  - intros j Hj. destruct j as [|j]; [reflexivity|lia].
  - reflexivity.
  - reflexivity.
Defined.

(** X2. A non-blocking [SendMessage] whose first [k < 5] looks find
    nothing ready and whose next look finds the open message channel
    able to take the message, the close signal not fired, sends the
    message at that look, after [k] sleeps, exactly once. *)
Theorem SendMessage_nonblocking_sends (fuel : nat) (e : env)
    (s : SSHConnection) (message : string) (k : nat) :
  (k < 5)%nat ->
  (forall j, (j < k)%nat ->
     Chan.recv_ready (Close (session_at e s j)) = false /\
     Chan.send_ready (Messages (session_at e s j)) = false) ->
  Chan.recv_ready (Close (session_at e s k)) = false ->
  Chan.send_ready (Messages (session_at e s k)) = true ->
  Chan.closed (Messages (session_at e s k)) = false ->
  let sk := session_at e s k in
  exists c',
    SendMessage fuel e s message false =
      Some (Ok (Sent, set_Messages sk c',
                attempts 0 k ++ [EvSelect k; EvSend message])) /\
    Chan.send (Messages sk) message = Ok c' /\
    (if Nat.ltb 0 (Chan.recvq (Messages sk))
     then Chan.handed c' = Chan.handed (Messages sk) ++ [message] /\
          Chan.buf c' = Chan.buf (Messages sk)
     else Chan.buf c' = Chan.buf (Messages sk) ++ [message] /\
          Chan.handed c' = Chan.handed (Messages sk)).
Proof.
  intros Hk Hbefore Hclose Hready Hopen sk.
  destruct (Chan_send_open (Messages sk) message Hopen)
    as (c' & Hsend & _ & _ & Hc').
  exists c'. split; [|split; [done|]].
  - unfold SendMessage.
    rewrite (send_loop_first_ready e s message k Hk)
      by (intros j Hj; apply select_default_iff, Hbefore, Hj).
    unfold select. fold sk. fold sk in Hclose, Hready.
    rewrite Hclose, Hready. unfold do_send. rewrite Hsend.
    by rewrite <- app_assoc.
  - destruct (Nat.ltb 0 (Chan.recvq (Messages sk)));
      destruct Hc' as (? & ? & _); done.
Qed.

Lemma SendMessage_nonblocking_sends_witness :
  let sk := session_at env_consumer example_session 1 in
  exists c',
    SendMessage 0 env_consumer example_session "hello" false =
      Some (Ok (Sent, set_Messages sk c',
                attempts 0 1 ++ [EvSelect 1; EvSend "hello"])) /\
    Chan.send (Messages sk) "hello" = Ok c' /\
    (if Nat.ltb 0 (Chan.recvq (Messages sk))
     then Chan.handed c' = Chan.handed (Messages sk) ++ ["hello"] /\
          Chan.buf c' = Chan.buf (Messages sk)
     else Chan.buf c' = Chan.buf (Messages sk) ++ ["hello"] /\
          Chan.handed c' = Chan.handed (Messages sk)).
Proof.
  apply (SendMessage_nonblocking_sends 0 env_consumer example_session
           "hello" 1).
  - lia.
  - intros j Hj. destruct j as [|j]; [split; reflexivity|lia].
  - reflexivity.
  - reflexivity.
  - reflexivity.
Defined.

Lemma do_send_cases (s : SSHConnection) (message : string)
    (tr : list send_event) :
  (Chan.closed (Messages s) = true /\
   do_send s message tr = Panic "send on closed channel") \/
  (Chan.closed (Messages s) = false /\
   exists c, Chan.send (Messages s) message = Ok c /\
     do_send s message tr = Ok (Sent, set_Messages s c, tr ++ [EvSend message])).
Proof.
  unfold do_send, Chan.send.
  destruct (Chan.closed (Messages s)); [by left|right].
  split; [done|].
  destruct (Nat.ltb 0 (Chan.recvq (Messages s))); eauto.
Qed.

(** X3. In every environment a non-blocking [SendMessage] comes back
    after at most five selects and at most five sleeps of 100 ms each,
    never more sleeps than selects; it hands the message over at most
    once, and exactly when it reports it sent; it gives up exactly
    after the fifth sleep; and it panics only on a message channel
    that some look found closed. *)
Theorem SendMessage_nonblocking_bounded (fuel : nat) (e : env)
    (s : SSHConnection) (message : string) :
  match SendMessage fuel e s message false with
  | Some (Ok (o, _, tr)) =>
      (length (List.filter is_select tr) <= 5)%nat /\
      (length (List.filter is_sleep tr) <= length (List.filter is_select tr))%nat /\
      List.filter is_sleep tr =
        replicate (length (List.filter is_sleep tr))
          (EvSleep (100 * Millisecond)) /\
      List.filter is_send tr =
        match o with Sent => [EvSend message] | _ => [] end /\
      (o = Dropped <-> length (List.filter is_sleep tr) = 5%nat)
  | Some (Panic _) =>
      exists k, (k < 5)%nat /\
        Chan.closed (Messages (session_at e s k)) = true
  | None => False
  end.
Proof.
  unfold SendMessage.
  destruct (send_loop_outcome e s message) as [->|(k & Hk & [->| ->])].
  - vm_compute. repeat split; (done || lia).
  - destruct (attempts_counts 0 k) as (Hsel & Hsl & Hsd).
    rewrite !List.filter_app, Hsl, Hsd. cbn [List.filter is_select is_sleep is_send].
    rewrite ?app_nil_r, ?length_app, ?Hsel, ?length_replicate. simpl.
    split; [lia|]. split; [lia|]. split; [done|]. split; [done|].
    split; [done|lia].
  - destruct (do_send_cases (session_at e s k) message
                (attempts 0 k ++ [EvSelect k]))
      as [(Hclosed & ->)|(_ & c & _ & ->)]; [by exists k|].
    destruct (attempts_counts 0 k) as (Hsel & Hsl & Hsd).
    rewrite !List.filter_app, Hsl, Hsd. cbn [List.filter is_select is_sleep is_send].
    rewrite ?app_nil_r, ?length_app, ?Hsel, ?length_replicate. simpl.
    split; [lia|]. split; [lia|]. split; [done|]. split; [done|].
    split; [done|lia].
Qed.


(** X5. Nothing in [SendMessage] guards against a closed message
    channel: when the first look finds it closed, a blocking call
    panics, and so does a non-blocking one unless the close signal has
    fired as well. *)
Theorem SendMessage_closed_channel_panics (fuel : nat) (e : env)
    (s : SSHConnection) (message : string) :
  Chan.closed (Messages s) = true ->
  SendMessage (S fuel) e s message true =
    Some (Panic "send on closed channel") /\
  (Chan.recv_ready (Close s) = false ->
   SendMessage fuel e s message false =
     Some (Panic "send on closed channel")).
Proof.
  intros Hclosed.
  assert (Hready : Chan.send_ready (Messages s) = true)
    by (unfold Chan.send_ready; by rewrite Hclosed).
  assert (Hsend : forall tr, do_send s message tr =
                    Panic "send on closed channel").
  { intros tr. unfold do_send, Chan.send. by rewrite Hclosed. }
  split.
  - unfold SendMessage. simpl. by rewrite Hready, Hsend.
  - intros Hclose. unfold SendMessage. simpl. unfold select.
    by rewrite Hclose, Hready, Hsend.
Qed.

Lemma SendMessage_closed_channel_panics_witness :
  SendMessage 1 env_idle example_session_messages_closed "hello" true =
    Some (Panic "send on closed channel") /\
  (Chan.recv_ready (Close example_session_messages_closed) = false ->
   SendMessage 0 env_idle example_session_messages_closed "hello" false =
     Some (Panic "send on closed channel")).
Proof.
  apply (SendMessage_closed_channel_panics 0 env_idle
           example_session_messages_closed "hello").
  reflexivity.
Defined.

(** ** CleanUp: what it leaves behind *)

(** X6. The first [CleanUp] of a session removes the entry of the
    session's remote address from the tracker and no other entry; the
    underlying connection is closed, whether or not it was closed
    before, its address and user unchanged; and one line naming that
    address and user is added at the end of the log. *)
Theorem CleanUp_deregisters (w w' : world) :
  fresh w -> CleanUp w = Ok w' ->
  let addr := RemoteAddr (SSHConn (w_sess w)) in
  SSHConnections (w_state w') !! addr = None /\
  (forall key, key <> addr ->
     SSHConnections (w_state w') !! key = SSHConnections (w_state w) !! key) /\
  SSHConn (w_sess w') =
    mkServerConn addr (User (SSHConn (w_sess w))) true /\
  w_log w' = w_log w ++ [closed_line (SSHConn (w_sess w))].
Proof.
  intros Hf Hc addr. rewrite (CleanUp_fresh w Hf) in Hc. injection Hc as <-.
  simpl. split; [apply lookup_delete_eq|].
  split; [|done]. intros key Hne. by apply lookup_delete_ne.
Qed.

Lemma CleanUp_deregisters_witness :
  let addr := RemoteAddr (SSHConn (w_sess example_world)) in
  let w' := with_once (mkOnce true false) (torn_down 4 example_world) in
  SSHConnections (w_state w') !! addr = None /\
  (forall key, key <> addr ->
     SSHConnections (w_state w') !! key =
     SSHConnections (w_state example_world) !! key) /\
  SSHConn (w_sess w') =
    mkServerConn addr (User (SSHConn (w_sess example_world))) true /\
  w_log w' = w_log example_world ++ [closed_line (SSHConn (w_sess example_world))].
Proof.
  apply (CleanUp_deregisters example_world
           (with_once (mkOnce true false) (torn_down 4 example_world))).
  - split; reflexivity.
  - reflexivity.
Defined.

(** X7. [CleanUp] touches nothing of the session but the guard, the
    close signal and the connection: the listeners are neither closed
    nor removed, the message channel and the exec and session signals
    are left as they are, open if they were, and what the close signal
    held stays in it. *)
Theorem CleanUp_frame (w w' : world) :
  fresh w -> CleanUp w = Ok w' ->
  Listeners (w_sess w') = Listeners (w_sess w) /\
  Messages (w_sess w') = Messages (w_sess w) /\
  Exec (w_sess w') = Exec (w_sess w) /\
  Session (w_sess w') = Session (w_sess w) /\
  SetupLock (w_sess w') = SetupLock (w_sess w) /\
  (ProxyProto (w_sess w'), HostHeader (w_sess w'), StripPath (w_sess w'),
   SNIProxy (w_sess w'), TCPAlias (w_sess w'), LocalForward (w_sess w'),
   CleanupHandler (w_sess w')) =
  (ProxyProto (w_sess w), HostHeader (w_sess w), StripPath (w_sess w),
   SNIProxy (w_sess w), TCPAlias (w_sess w), LocalForward (w_sess w),
   CleanupHandler (w_sess w)) /\
  Chan.buf (Close (w_sess w')) = Chan.buf (Close (w_sess w)) /\
  Chan.closed (Close (w_sess w')) = true.
Proof.
  intros Hf Hc. rewrite (CleanUp_fresh w Hf) in Hc. injection Hc as <-.
  done.
Qed.

Lemma CleanUp_frame_witness :
  let w' := with_once (mkOnce true false) (torn_down 4 example_world) in
  Listeners (w_sess w') = Listeners (w_sess example_world) /\
  Messages (w_sess w') = Messages (w_sess example_world) /\
  Exec (w_sess w') = Exec (w_sess example_world) /\
  Session (w_sess w') = Session (w_sess example_world) /\
  SetupLock (w_sess w') = SetupLock (w_sess example_world) /\
  (ProxyProto (w_sess w'), HostHeader (w_sess w'), StripPath (w_sess w'),
   SNIProxy (w_sess w'), TCPAlias (w_sess w'), LocalForward (w_sess w'),
   CleanupHandler (w_sess w')) =
  (ProxyProto (w_sess example_world), HostHeader (w_sess example_world),
   StripPath (w_sess example_world), SNIProxy (w_sess example_world),
   TCPAlias (w_sess example_world), LocalForward (w_sess example_world),
   CleanupHandler (w_sess example_world)) /\
  Chan.buf (Close (w_sess w')) = Chan.buf (Close (w_sess example_world)) /\
  Chan.closed (Close (w_sess w')) = true.
Proof.
  apply (CleanUp_frame example_world
           (with_once (mkOnce true false) (torn_down 4 example_world))).
  - split; reflexivity.
  - reflexivity.
Defined.



(** ** CleanUp: concurrent calls *)

Lemma run_fresh_inv (n : nat) (w : world) (sched : list nat) (c : config) :
  fresh w -> run sched (init n w) = Ok c -> inv w c.
Proof.
  intros Hf Hr. pose proof Hf as [_ Hopen].
  destruct (inv_run w sched (init n w) Hopen (inv_init n w Hf))
    as (c' & Hr' & HI).
  congruence.
Qed.

(** X9. Under every schedule of concurrent calls on a fresh session,
    as soon as any one call of [CleanUp] has returned, be it the one
    that ran the body or another, the whole teardown has happened: the
    four side effects are done, the close signal and the connection
    are closed and the session is out of the tracker. *)
Theorem CleanUp_returned_is_done (n : nat) (w : world) (sched : list nat)
    (c : config) (i : nat) :
  fresh w ->
  run sched (init n w) = Ok c ->
  pcs c !! i = Some PcRet ->
  w_effects (cw c) = w_effects w ++ body_effects w /\
  once_done (Closed (w_sess (cw c))) = true /\
  Chan.closed (Close (w_sess (cw c))) = true /\
  conn_closed (SSHConn (w_sess (cw c))) = true /\
  SSHConnections (w_state (cw c)) !! RemoteAddr (SSHConn (w_sess w)) = None.
Proof.
  intros Hf Hr Hi.
  destruct (run_fresh_inv n w sched c Hf Hr)
    as (k & d & m & Hw & _ & Hdk & _ & Hok & _).
  pose proof (Hok i PcRet Hi) as Hd. simpl in Hd. subst d.
  rewrite (Hdk eq_refl) in Hw. rewrite Hw. simpl.
  repeat split. apply lookup_delete_eq.
Qed.

Lemma CleanUp_returned_is_done_witness :
  exists c,
    run [0; 0; 0; 0; 0; 0; 0; 0; 0]%nat (init 2 example_world) = Ok c /\
    pcs c !! 0%nat = Some PcRet /\
    w_effects (cw c) = w_effects example_world ++ body_effects example_world /\
    once_done (Closed (w_sess (cw c))) = true /\
    Chan.closed (Close (w_sess (cw c))) = true /\
    conn_closed (SSHConn (w_sess (cw c))) = true /\
    SSHConnections (w_state (cw c)) !!
      RemoteAddr (SSHConn (w_sess example_world)) = None.
Proof.
  eexists. split; [reflexivity|]. split; [reflexivity|].
  apply (CleanUp_returned_is_done 2 example_world
           [0; 0; 0; 0; 0; 0; 0; 0; 0]%nat _ 0).
  - split; reflexivity.
  - reflexivity.
  - reflexivity.
Defined.

(** X10. Under every schedule of concurrent calls on a fresh session,
    at most one goroutine is between the lock and the unlock of the
    guard, and so at most one is in the teardown body; the guard's
    mutex is held exactly when there is one. *)
Theorem CleanUp_body_exclusive (n : nat) (w : world) (sched : list nat)
    (c : config) :
  fresh w ->
  run sched (init n w) = Ok c ->
  (forall i j p q, pcs c !! i = Some p -> pcs c !! j = Some q ->
     crit p = true -> crit q = true -> i = j) /\
  (once_m (Closed (w_sess (cw c))) = true <->
   exists i p, pcs c !! i = Some p /\ crit p = true).
Proof.
  intros Hf Hr.
  destruct (run_fresh_inv n w sched c Hf Hr)
    as (k & d & m & Hw & _ & _ & _ & _ & Huniq & Hm).
  split; [exact Huniq|]. rewrite Hw. simpl. exact Hm.
Qed.

Lemma CleanUp_body_exclusive_witness :
  exists c,
    run [0; 1; 0; 1; 0; 1; 0]%nat (init 2 example_world) = Ok c /\
    (forall i j p q, pcs c !! i = Some p -> pcs c !! j = Some q ->
       crit p = true -> crit q = true -> i = j) /\
    (once_m (Closed (w_sess (cw c))) = true <->
     exists i p, pcs c !! i = Some p /\ crit p = true).
Proof.
  eexists. split; [reflexivity|].
  apply (CleanUp_body_exclusive 2 example_world [0; 1; 0; 1; 0; 1; 0]%nat).
  - split; reflexivity.
  - reflexivity.
Defined.

(** ** The tee as a connection *)

(** X11. Of the methods of a [TeeConn] only [Read] does anything:
    whatever writes, closes and deadline changes are mixed into a
    sequence of calls, the reads return what they would return without
    them and leave the same buffer and the same wrapped reader, also
    after [Close]; every write is refused with 0 bytes and
    [io.ErrClosedPipe], and every other call returns [nil]. *)
Theorem TeeConn_only_reads_count {R} `{io_Reader R} (conn : TeeConn R)
    (ops : list conn_op) :
  (tee_ops conn ops).1 = (read_all conn (read_sizes ops)).1 /\
  read_results (tee_ops conn ops).2 = (read_all conn (read_sizes ops)).2 /\
  Forall shim_result (other_results (tee_ops conn ops).2).
Proof.
  revert conn. induction ops as [|op ops IH]; intros conn; [done|].
  destruct op; simpl.
  - destruct (TeeConn.Read conn n) as [conn1 [bs err]].
    specialize (IH conn1).
    destruct (tee_ops conn1 ops) as [conn2 rs].
    destruct (read_all conn1 (read_sizes ops)) as [conn3 results].
    simpl in *. destruct IH as (-> & -> & ?). done.
  - specialize (IH conn). destruct (tee_ops conn ops) as [conn2 rs].
    simpl in *. destruct IH as (-> & -> & ?).
    repeat split; try done. constructor; [by left|done].
  - specialize (IH conn). destruct (tee_ops conn ops) as [conn2 rs].
    simpl in *. destruct IH as (-> & -> & ?).
    repeat split; try done. constructor; [by right|done].
  - specialize (IH conn). destruct (tee_ops conn ops) as [conn2 rs].
    simpl in *. destruct IH as (-> & -> & ?).
    repeat split; try done. constructor; [by right|done].
  - specialize (IH conn). destruct (tee_ops conn ops) as [conn2 rs].
    simpl in *. destruct IH as (-> & -> & ?).
    repeat split; try done. constructor; [by right|done].
  - specialize (IH conn). destruct (tee_ops conn ops) as [conn2 rs].
    simpl in *. destruct IH as (-> & -> & ?).
    repeat split; try done. constructor; [by right|done].
Qed.

Lemma stream_Read_bounded (s : stream) (n : nat) :
  (length (io_Read s n).2.1 <= n)%nat.
Proof.
  unfold io_Read, stream_Reader.
  destruct (rest s) as [|b l] eqn:Hr; simpl; [lia|].
  destruct (limits s) as [|l0 ls]; rewrite length_take; simpl; lia.
Qed.

(** X12. The tee asks the wrapped reader for no more than its caller
    asks of it: over a reader that returns at most as many bytes as a
    call allows, the buffer after any reads holds at most as many
    bytes as these reads allowed in all. *)
Theorem TeeConn_buffer_bounded {R} `{io_Reader R} (reader : R)
    (sizes : list nat) :
  (forall (r : R) (n : nat), (length (io_Read r n).2.1 <= n)%nat) ->
  (length (TeeConn.GetBuffer (read_all (NewTeeConn reader) sizes).1)
   <= sum_list sizes)%nat.
Proof.
  intros Hbound. rewrite read_all_unfold. simpl.
  destruct (source_reads reader sizes) as [r' results] eqn:Hs. simpl.
  revert reader r' results Hs.
  induction sizes as [|n sizes IH]; intros reader r' results Hs;
    simpl in Hs.
  - by injection Hs as <- <-.
  - pose proof (Hbound reader n) as Hn.
    destruct (io_Read reader n) as [r1 [bs err]]. simpl in Hn.
    destruct (source_reads r1 sizes) as [r2 results2] eqn:Hs2.
    injection Hs as <- <-. specialize (IH _ _ _ Hs2).
    unfold bytes_of in *. csimpl. rewrite length_app. lia.
Qed.

Lemma TeeConn_buffer_bounded_witness :
  (length (TeeConn.GetBuffer
             (read_all (NewTeeConn example_stream) [5; 4]%nat).1)
   <= sum_list [5; 4]%nat)%nat.
Proof.
  apply (TeeConn_buffer_bounded example_stream [5; 4]%nat).
  exact stream_Read_bounded.
Defined.

(** ** The relay: the calls it makes *)

Section AppendsFacts.
Context {W : Type} `{Net W}.

Lemma appends_ret {A} (Q : list call -> Prop) (a : A) :
  Q [] -> appends Q (ret (W := W) a).
Proof. intros HQ w tr. exists []. by rewrite app_nil_r. Qed.

Lemma appends_bind {A B} (Q : list call -> Prop) (m : M W A)
    (f : A -> M W B) :
  (forall a b, Q a -> Q b -> Q (a ++ b)) ->
  appends Q m -> (forall x, appends Q (f x)) -> appends Q (bind m f).
Proof.
  intros Happ Hm Hf w tr. unfold bind.
  destruct (Hm w tr) as (a1 & Ha1 & HQ1).
  destruct (m (w, tr)) as [[w1 tr1] x]. simpl in Ha1. subst tr1.
  destruct (Hf x w1 (tr ++ a1)) as (a2 & Ha2 & HQ2).
  exists (a1 ++ a2). rewrite Ha2, app_assoc. auto.
Qed.

Lemma appends_weaken {A} (Q Q' : list call -> Prop) (m : M W A) :
  (forall l, Q l -> Q' l) -> appends Q m -> appends Q' m.
Proof.
  intros HQ Hm w tr. destruct (Hm w tr) as (a & Ha & Hq). eauto.
Qed.

Lemma appends_do_Now (Q : list call -> Prop) :
  Q [CallNow] -> appends Q (do_Now (W := W)).
Proof.
  intros HQ w tr. unfold do_Now. destruct (time_Now w). by exists [CallNow].
Qed.

Lemma appends_do_Read (Q : list call -> Prop) (c : conn_id) (n : nat) :
  Q [CallRead c n] -> appends Q (do_Read (W := W) c n).
Proof.
  intros HQ w tr. unfold do_Read. destruct (net_Read c w n).
  by exists [CallRead c n].
Qed.

Lemma appends_do_Write (Q : list call -> Prop) (c : conn_id) (p : list byte) :
  Q [CallWrite c p] -> appends Q (do_Write (W := W) c p).
Proof.
  intros HQ w tr. unfold do_Write. destruct (net_Write c w p).
  by exists [CallWrite c p].
Qed.

Lemma appends_do_Close (Q : list call -> Prop) (c : conn_id) :
  Q [CallClose c] -> appends Q (do_Close (W := W) c).
Proof.
  intros HQ w tr. unfold do_Close. destruct (net_Close c w).
  by exists [CallClose c].
Qed.

(** The calls of a read through a [ReadWriter]: the read itself, after
    the clock and the read deadline when wrapped, or the clock and the
    deadline alone when the deadline is refused. *)
Lemma rw_Read_calls (cfg : viper) (rw : ReadWriter) (n : nat) (w : W)
    (tr : list call) :
  exists added,
    (rw_Read cfg rw n (w, tr)).1.2 = tr ++ added /\
    (added = [CallRead (rw_conn rw) n] /\ rw_idle rw = false \/
     rw_idle rw = true /\ exists t,
       (added = [CallNow; CallSetReadDeadline (rw_conn rw) t] /\
        (rw_Read cfg rw n (w, tr)).2.1 = [] \/
        added = [CallNow; CallSetReadDeadline (rw_conn rw) t;
                 CallRead (rw_conn rw) n])).
Proof.
  destruct rw as [c|i]; simpl.
  - unfold do_Read. destruct (net_Read c w n). eauto.
  - unfold IdleTimeoutConn.Read, bind, ret, do_Now, do_SetReadDeadline,
      do_Read.
    destruct (time_Now w) as [w1 now].
    set (t := Time_Add now (idle_connection_timeout cfg)).
    destruct (net_SetReadDeadline (Conn i) w1 t) as [w2 [e|]].
    + exists [CallNow; CallSetReadDeadline (Conn i) t]. simpl.
      rewrite <- app_assoc. split; [done|]. right. split; [done|].
      exists t. by left.
    + destruct (net_Read (Conn i) w2 n) as [w3 r].
      exists [CallNow; CallSetReadDeadline (Conn i) t; CallRead (Conn i) n].
      simpl. rewrite <- !app_assoc. split; [done|]. right. split; [done|].
      exists t. by right.
Qed.

Lemma rw_Write_calls (cfg : viper) (rw : ReadWriter) (p : list byte) (w : W)
    (tr : list call) :
  exists added,
    (rw_Write cfg rw p (w, tr)).1.2 = tr ++ added /\
    (added = [CallWrite (rw_conn rw) p] /\ rw_idle rw = false \/
     rw_idle rw = true /\ exists t,
       (added = [CallNow; CallSetWriteDeadline (rw_conn rw) t] \/
        added = [CallNow; CallSetWriteDeadline (rw_conn rw) t;
                 CallWrite (rw_conn rw) p])).
Proof.
  destruct rw as [c|i]; simpl.
  - unfold do_Write. destruct (net_Write c w p). eauto.
  - unfold IdleTimeoutConn.Write, bind, ret, do_Now, do_SetWriteDeadline,
      do_Write.
    destruct (time_Now w) as [w1 now].
    set (t := Time_Add now (idle_connection_timeout cfg)).
    destruct (net_SetWriteDeadline (Conn i) w1 t) as [w2 [e|]].
    + exists [CallNow; CallSetWriteDeadline (Conn i) t]. simpl.
      rewrite <- app_assoc. split; [done|]. right. split; [done|].
      exists t. by left.
    + destruct (net_Write (Conn i) w2 p) as [w3 r].
      exists [CallNow; CallSetWriteDeadline (Conn i) t;
              CallWrite (Conn i) p].
      simpl. rewrite <- !app_assoc. split; [done|]. right. split; [done|].
      exists t. by right.
Qed.

(** What holds of the calls of each read and each write, and is kept
    by putting records one after the other, holds of the calls of a
    copy. *)
Lemma io_Copy_appends (Q : list call -> Prop) (cfg : viper)
    (dst src : ReadWriter) :
  Q [] ->
  (forall a b, Q a -> Q b -> Q (a ++ b)) ->
  (forall n, appends Q (rw_Read (W := W) cfg src n)) ->
  (forall p, appends Q (rw_Write (W := W) cfg dst p)) ->
  forall fuel written, appends Q (io_Copy cfg fuel dst src written).
Proof.
  intros Hnil Happ Hread Hwrite fuel.
  induction fuel as [|fuel IH]; intros written; simpl.
  - by apply appends_ret.
  - apply appends_bind; [done|apply Hread|]. intros [bs er].
    assert (Hafter : forall wr,
              appends Q (match after_read wr er with
                         | Some r => ret (Some r)
                         | None => io_Copy cfg fuel dst src wr
                         end)).
    { intros wr. destruct (after_read wr er); [by apply appends_ret|apply IH]. }
    destruct (0 <? Z.of_nat (length bs)); [|apply Hafter].
    apply appends_bind; [done|apply Hwrite|]. intros [nw0 ew0].
    destruct ((nw0 <? 0) || (Z.of_nat (length bs) <? nw0)).
    + destruct ew0; by apply appends_ret.
    + destruct ew0; [by apply appends_ret|].
      destruct (negb (Z.of_nat (length bs) =? nw0));
        [by apply appends_ret|apply Hafter].
Qed.

(** The same for a whole direction, which after its copy logs at most
    one line and closes the upstream and the downstream. *)
Lemma run_direction_appends (Q : list call -> Prop) (cfg : viper)
    (d : direction) (writer reader : conn_id) :
  Q [] ->
  (forall a b, Q a -> Q b -> Q (a ++ b)) ->
  (forall dst src n, (dst, src) = match d with
                                  | ToReader => (RWConn reader, tcon cfg writer)
                                  | ToWriter => (tcon cfg writer, RWConn reader)
                                  end ->
     appends Q (rw_Read (W := W) cfg src n)) ->
  (forall dst src p, (dst, src) = match d with
                                  | ToReader => (RWConn reader, tcon cfg writer)
                                  | ToWriter => (tcon cfg writer, RWConn reader)
                                  end ->
     appends Q (rw_Write (W := W) cfg dst p)) ->
  (forall e, Q [CallLog (what_of d) e]) ->
  Q [CallClose reader; CallClose writer] ->
  forall fuel,
    appends Q (run_direction (W := W) cfg d fuel writer reader).
Proof.
  intros Hnil Happ Hread Hwrite Hlog Hclose fuel w tr.
  assert (Hcopy : appends Q (copy_of (W := W) cfg d fuel writer reader)).
  { destruct d; simpl; apply io_Copy_appends; eauto. }
  assert (Hrun : run_direction cfg d fuel writer reader (w, tr) =
                 finish cfg (what_of d) writer reader
                   (copy_of cfg d fuel writer reader (w, tr))).
  { destruct d; simpl;
      [apply copyToReader_unfold|apply copyToWriter_unfold]. }
  rewrite Hrun. destruct (Hcopy w tr) as (a & Ha & HQ).
  destruct (copy_of cfg d fuel writer reader (w, tr))
    as [[w1 tr1] [[n err]|]]; simpl in *; subst tr1.
  - exists (a ++ log_calls cfg (what_of d) err ++
            [CallClose reader; CallClose writer]).
    rewrite <- app_assoc. split; [done|].
    apply Happ; [done|]. apply Happ; [|done].
    unfold log_calls. destruct err; [destruct (debug cfg)|]; auto.
  - by exists a.
Qed.
End AppendsFacts.

Section RelayCalls.
Context {W : Type} `{Net W}.

Lemma rw_Read_Forall (P : call -> Prop) (cfg : viper) (rw : ReadWriter)
    (n : nat) :
  P (CallRead (rw_conn rw) n) ->
  (rw_idle rw = true ->
   P CallNow /\ forall t, P (CallSetReadDeadline (rw_conn rw) t)) ->
  appends (Forall P) (rw_Read (W := W) cfg rw n).
Proof.
  intros Hr Hidle w tr.
  destruct (rw_Read_calls cfg rw n w tr)
    as (added & Ha & [(-> & _)|(Hi & t & [(-> & _)| ->])]).
  - eexists. split; [exact Ha|]. by repeat constructor.
  - destruct (Hidle Hi) as [Hnow Hset].
    eexists. split; [exact Ha|]. by repeat constructor.
  - destruct (Hidle Hi) as [Hnow Hset].
    eexists. split; [exact Ha|]. by repeat constructor.
Qed.

Lemma rw_Write_Forall (P : call -> Prop) (cfg : viper) (rw : ReadWriter)
    (p : list byte) :
  P (CallWrite (rw_conn rw) p) ->
  (rw_idle rw = true ->
   P CallNow /\ forall t, P (CallSetWriteDeadline (rw_conn rw) t)) ->
  appends (Forall P) (rw_Write (W := W) cfg rw p).
Proof.
  intros Hr Hidle w tr.
  destruct (rw_Write_calls cfg rw p w tr)
    as (added & Ha & [(-> & _)|(Hi & t & [->| ->])]).
  - eexists. split; [exact Ha|]. by repeat constructor.
  - destruct (Hidle Hi) as [Hnow Hset].
    eexists. split; [exact Ha|]. by repeat constructor.
  - destruct (Hidle Hi) as [Hnow Hset].
    eexists. split; [exact Ha|]. by repeat constructor.
Qed.

Lemma rw_conn_tcon (cfg : viper) (writer : conn_id) :
  rw_conn (tcon cfg writer) = writer /\
  rw_idle (tcon cfg writer) = idle_connection cfg.
Proof. unfold tcon. by destruct (idle_connection cfg). Qed.
End RelayCalls.

(** X13. In each direction the relay reads only from its source and
    writes only to its destination: to the writer it reads the
    upstream and writes the downstream, to the reader the other way
    round. Deadlines are set on the downstream only, read deadlines by
    the direction to the reader and write deadlines by the direction
    to the writer, never on the upstream; and only the two connections
    given are closed. *)
Theorem relay_direction_calls {W} `{Net W} (cfg : viper) (d : direction)
    (fuel : nat) (writer reader : conn_id) (w : W) (tr : list call) :
  exists added,
    (run_direction cfg d fuel writer reader (w, tr)).1.2 = tr ++ added /\
    Forall (direction_call_ok d writer reader) added.
Proof.
  apply (run_direction_appends
           (Forall (direction_call_ok d writer reader)) cfg d writer reader).
  - constructor.
  - intros a b. apply Forall_app_2.
  - intros dst src n Heq.
    destruct (rw_conn_tcon cfg writer) as [Hc Hi].
    destruct d; injection Heq as -> ->; apply rw_Read_Forall;
      rewrite ?Hc, ?Hi; simpl; try done.
  - intros dst src p Heq.
    destruct (rw_conn_tcon cfg writer) as [Hc Hi].
    destruct d; injection Heq as -> ->; apply rw_Write_Forall;
      rewrite ?Hc, ?Hi; simpl; try done.
  - intros e. constructor; [by destruct d|constructor].
  - constructor; [destruct d; by left|].
    constructor; [destruct d; by right|constructor].
Qed.

(** X14. With the option idle-connection off the relay never reads
    the clock and never sets a deadline, in either direction and
    however its copy ends. *)
Theorem relay_no_timers_without_idle {W} `{Net W} (timeout : Duration)
    (dbg : bool) (d : direction) (fuel : nat) (writer reader : conn_id)
    (w : W) (tr : list call) :
  exists added,
    (run_direction (mkViper false timeout dbg) d fuel writer reader
       (w, tr)).1.2 = tr ++ added /\
    Forall (fun c => is_timer c = false) added.
Proof.
  apply (run_direction_appends (Forall (fun c => is_timer c = false))
           (mkViper false timeout dbg) d writer reader).
  - constructor.
  - intros a b. apply Forall_app_2.
  - intros dst src n Heq.
    destruct d; injection Heq as -> ->; by apply rw_Read_Forall.
  - intros dst src p Heq.
    destruct d; injection Heq as -> ->; by apply rw_Write_Forall.
  - intros e. by repeat constructor.
  - by repeat constructor.
Qed.

(** X15. A direction of the relay closes nothing and logs nothing
    while its copy is going on; once the copy has come back it logs
    at most the one line for the copy's error and then makes exactly
    two [Close] calls, on the upstream and on the downstream, as its
    last two calls. *)
Theorem relay_close_discipline {W} `{Net W} (cfg : viper) (d : direction)
    (fuel : nat) (writer reader : conn_id) (w : W) (tr : list call) :
  exists added,
    Forall quiet added /\
    match (run_direction cfg d fuel writer reader (w, tr)).2 with
    | None =>
        (run_direction cfg d fuel writer reader (w, tr)).1.2 = tr ++ added
    | Some _ =>
        exists err,
          (run_direction cfg d fuel writer reader (w, tr)).1.2 =
            tr ++ added ++ log_calls cfg (what_of d) err ++
              [CallClose reader; CallClose writer] /\
          (debug cfg = false \/ err = None ->
           log_calls cfg (what_of d) err = [])
    end.
Proof.
  assert (Hcopy : appends (W := W) (Forall quiet)
                    (copy_of cfg d fuel writer reader)).
  { destruct d; simpl; apply io_Copy_appends;
      try (constructor; fail); try (intros a b; apply Forall_app_2);
      intros; first [apply rw_Read_Forall|apply rw_Write_Forall]; done. }
  assert (Hrun : run_direction cfg d fuel writer reader (w, tr) =
                 finish cfg (what_of d) writer reader
                   (copy_of cfg d fuel writer reader (w, tr))).
  { destruct d; simpl;
      [apply copyToReader_unfold|apply copyToWriter_unfold]. }
  rewrite Hrun. destruct (Hcopy w tr) as (a & Ha & HQ).
  destruct (copy_of cfg d fuel writer reader (w, tr))
    as [[w1 tr1] [[n err]|]]; simpl in *; subst tr1; exists a;
    (split; [done|]); [|done].
  exists err. rewrite <- app_assoc. split; [done|].
  unfold log_calls. intros [-> | ->]; [by destruct err|done].
Qed.

Lemma refreshed_nil (writer : conn_id) : refreshed writer [].
Proof. intros pre c post Heq. by destruct pre. Qed.

Lemma refreshed_app (writer : conn_id) (a b : list call) :
  refreshed writer a -> refreshed writer b -> refreshed writer (a ++ b).
Proof.
  intros Ha Hb pre c post Heq.
  assert (Hin_b : forall k, b = k ++ c :: post -> pre = a ++ k ->
            match c with
            | CallRead x _ =>
                x = writer ->
                exists pre' t,
                  pre = pre' ++ [CallNow; CallSetReadDeadline writer t]
            | CallWrite x _ =>
                x = writer ->
                exists pre' t,
                  pre = pre' ++ [CallNow; CallSetWriteDeadline writer t]
            | _ => True
            end).
  { intros k Hk ->. specialize (Hb k c post Hk).
    destruct c; try done; intros Hx;
      destruct (Hb Hx) as (pre' & t & ->);
      exists (a ++ pre'), t; by rewrite app_assoc. }
  apply app_eq_inv in Heq as [(k & Hk1 & Hk2)|(k & Hk1 & Hk2)].
  - destruct k as [|c' k].
    + simpl in Hk2. apply (Hin_b []); [done|]. by rewrite app_nil_r in *.
    + injection Hk2 as <- ->. exact (Ha pre c k Hk1).
  - by apply (Hin_b k).
Qed.

Lemma refreshed_single (writer : conn_id) (c : call) :
  match c with
  | CallRead x _ | CallWrite x _ => x <> writer
  | _ => True
  end ->
  refreshed writer [c].
Proof.
  intros Hc pre c' post Heq.
  destruct pre as [|c0 pre]; [|by destruct pre].
  injection Heq as <- <-. by destruct c.
Qed.

Lemma refreshed_read_block (writer : conn_id) (t : Time) (n : nat) :
  refreshed writer [CallNow; CallSetReadDeadline writer t; CallRead writer n].
Proof.
  intros pre c post Heq.
  destruct pre as [|c0 [|c1 [|c2 pre]]]; simpl in Heq.
  - by injection Heq as <- <-.
  - by injection Heq as <- <- <-.
  - injection Heq as <- <- <- <-. intros _. by exists [], t.
  - injection Heq as _ _ _ Heq. by destruct pre.
Qed.

Lemma refreshed_write_block (writer : conn_id) (t : Time) (p : list byte) :
  refreshed writer [CallNow; CallSetWriteDeadline writer t; CallWrite writer p].
Proof.
  intros pre c post Heq.
  destruct pre as [|c0 [|c1 [|c2 pre]]]; simpl in Heq.
  - by injection Heq as <- <-.
  - by injection Heq as <- <- <-.
  - injection Heq as <- <- <- <-. intros _. by exists [], t.
  - injection Heq as _ _ _ Heq. by destruct pre.
Qed.

Lemma refreshed_pair (writer : conn_id) (c1 c2 : call) :
  refreshed writer [c1] -> refreshed writer [c2] -> refreshed writer [c1; c2].
Proof. intros H1 H2. by apply (refreshed_app writer [c1] [c2]). Qed.

(** X16. With the option idle-connection on, and the two connections
    distinct, every read and every write the relay makes on the
    downstream comes right after the clock was read and the matching
    deadline of the downstream was set: no downstream transfer goes
    without a fresh deadline. *)
Theorem relay_deadline_refreshed {W} `{Net W} (timeout : Duration)
    (dbg : bool) (d : direction) (fuel : nat) (writer reader : conn_id)
    (w : W) (tr : list call) :
  writer <> reader ->
  exists added,
    (run_direction (mkViper true timeout dbg) d fuel writer reader
       (w, tr)).1.2 = tr ++ added /\
    refreshed writer added.
Proof.
  intros Hne.
  apply (run_direction_appends (refreshed writer)
           (mkViper true timeout dbg) d writer reader).
  - apply refreshed_nil.
  - apply refreshed_app.
  - intros dst src n Heq w0 tr0.
    destruct (rw_Read_calls (mkViper true timeout dbg) src n w0 tr0)
      as (added & Ha & Hcases).
    exists added. split; [exact Ha|].
    assert (Hsrc : src = RWIdle (mkIdleTimeoutConn writer) \/
                   src = RWConn reader)
      by (destruct d; injection Heq as -> ->; auto).
    destruct Hsrc as [-> | ->];
      destruct Hcases as [(-> & Hi)|(Hi & t & [(-> & _)| ->])];
      try discriminate Hi; simpl.
    + apply refreshed_pair; by apply refreshed_single.
    + apply refreshed_read_block.
    + apply refreshed_single. simpl. congruence.
  - intros dst src p Heq w0 tr0.
    destruct (rw_Write_calls (mkViper true timeout dbg) dst p w0 tr0)
      as (added & Ha & Hcases).
    exists added. split; [exact Ha|].
    assert (Hdst : dst = RWIdle (mkIdleTimeoutConn writer) \/
                   dst = RWConn reader)
      by (destruct d; injection Heq as -> ->; auto).
    destruct Hdst as [-> | ->];
      destruct Hcases as [(-> & Hi)|(Hi & t & [->| ->])];
      try discriminate Hi; simpl.
    + apply refreshed_pair; by apply refreshed_single.
    + apply refreshed_write_block.
    + apply refreshed_single. simpl. congruence.
  - intros e. by apply refreshed_single.
  - apply refreshed_pair; by apply refreshed_single.
Qed.

Lemma relay_deadline_refreshed_witness :
  exists added,
    (run_direction (mkViper true (30000 * Millisecond) true) ToWriter 2
       0%nat 1%nat (example_net, [])).1.2 = [] ++ added /\
    refreshed 0%nat added.
Proof.
  apply (relay_deadline_refreshed (30000 * Millisecond) true ToWriter 2
           0%nat 1%nat example_net []).
  discriminate.
Defined.

(** ** The relay: the bytes it moves *)

Lemma payloads_app (c : conn_id) (a b : list call) :
  payloads c (a ++ b) = payloads c a ++ payloads c b.
Proof. unfold payloads. apply flat_map_app. Qed.

Lemma chunks_snoc (c c' : conn_id) (l : list (conn_id * list byte))
    (bs : list byte) :
  chunks c (l ++ [(c', bs)]) =
  chunks c l ++
    (if Nat.eqb c' c then match bs with [] => [] | _ :: _ => [bs] end else []).
Proof.
  unfold chunks. rewrite flat_map_app. simpl. by rewrite app_nil_r.
Qed.

Section Recorded.
Context {W : Type} `{Net W}.

(** A read through a [ReadWriter] on the recording network hands no
    payload to anybody and records the bytes it returns. *)
Lemma rw_Read_recorded (cfg : viper) (rw : ReadWriter) (n : nat)
    (c : conn_id) (w w1 : recorded W) (tr tr1 : list call) (bs : list byte)
    (er : option error) :
  rw_Read cfg rw n (w, tr) = ((w1, tr1), (bs, er)) ->
  payloads c tr1 = payloads c tr /\
  chunks (rw_conn rw) (rec_reads w1) =
    chunks (rw_conn rw) (rec_reads w) ++
      match bs with [] => [] | _ :: _ => [bs] end.
Proof.
  destruct rw as [x|i]; simpl.
  - unfold do_Read. simpl.
    destruct (net_Read x (rec_net w) n) as [w' [bs' e']].
    intros [= <- <- <- <-]. simpl.
    rewrite payloads_app, chunks_snoc, Nat.eqb_refl. simpl.
    by rewrite app_nil_r.
  - unfold IdleTimeoutConn.Read, bind, ret, do_Now, do_SetReadDeadline,
      do_Read. simpl.
    destruct (time_Now (rec_net w)) as [w' now]. simpl.
    destruct (net_SetReadDeadline (Conn i) w' _) as [w2 [e|]]; simpl.
    + intros [= <- <- <- <-]. simpl.
      rewrite !payloads_app. simpl. by rewrite !app_nil_r.
    + destruct (net_Read (Conn i) w2 n) as [w3 [bs' e']].
      intros [= <- <- <- <-]. simpl.
      rewrite !payloads_app, chunks_snoc, Nat.eqb_refl. simpl.
      by rewrite !app_nil_r.
Qed.

(** A write through a [ReadWriter] records no read; it hands its
    payload to the connection, unless the deadline was refused, in
    which case it reports 0 bytes and an error. *)
Lemma rw_Write_recorded (cfg : viper) (rw : ReadWriter) (p : list byte)
    (c : conn_id) (w w1 : recorded W) (tr tr1 : list call) (nw : Z)
    (ew : option error) :
  rw_Write cfg rw p (w, tr) = ((w1, tr1), (nw, ew)) ->
  rec_reads w1 = rec_reads w /\
  (payloads (rw_conn rw) tr1 = payloads (rw_conn rw) tr ++ [p] \/
   payloads (rw_conn rw) tr1 = payloads (rw_conn rw) tr /\
   nw = 0 /\ ew <> None).
Proof.
  destruct rw as [x|i]; simpl.
  - unfold do_Write. simpl.
    destruct (net_Write x (rec_net w) p) as [w' [nw' e']].
    intros [= <- <- <- <-]. simpl.
    rewrite payloads_app. simpl. rewrite Nat.eqb_refl. auto.
  - unfold IdleTimeoutConn.Write, bind, ret, do_Now, do_SetWriteDeadline,
      do_Write. simpl.
    destruct (time_Now (rec_net w)) as [w' now]. simpl.
    destruct (net_SetWriteDeadline (Conn i) w' _) as [w2 [e|]]; simpl.
    + intros [= <- <- <- <-]. simpl.
      rewrite !payloads_app. simpl. rewrite !app_nil_r. split; [done|].
      right. done.
    + destruct (net_Write (Conn i) w2 p) as [w3 [nw' e']].
      intros [= <- <- <- <-]. simpl.
      rewrite !payloads_app. simpl. rewrite Nat.eqb_refl, !app_nil_r. auto.
Qed.
End Recorded.

Section Faithful.
Context {W : Type} `{Net W}.

(** The outcome of a copy on the recording network, compared with what
    was read: [sent] the payloads handed to the destination, [got] the
    non-empty chunks read from the source. *)
Lemma io_Copy_faithful (cfg : viper) (dst src : ReadWriter) (fuel : nat) :
  forall (written : Z) (w : recorded W) (tr : list call),
    payloads (rw_conn dst) tr = chunks (rw_conn src) (rec_reads w) ->
    written = Z.of_nat (length (concat (payloads (rw_conn dst) tr))) ->
    forall w' tr' r,
      io_Copy cfg fuel dst src written (w, tr) = ((w', tr'), r) ->
      let sent := payloads (rw_conn dst) tr' in
      let got := chunks (rw_conn src) (rec_reads w') in
      (sent = got \/ exists bs, got = sent ++ [bs]) /\
      match r with
      | None => sent = got
      | Some (n, None) => sent = got /\ n = Z.of_nat (length (concat got))
      | Some (_, Some _) => True
      end.
Proof.
  induction fuel as [|fuel IH]; intros written w tr HJ Hwr w' tr' r Hrun;
    cbn [io_Copy] in Hrun.
  - injection Hrun as <- <- <-. simpl. auto.
  - unfold bind at 1 in Hrun.
    destruct (rw_Read cfg src copy_buffer_size (w, tr))
      as [[w1 tr1] [bs er]] eqn:Hrd.
    destruct (rw_Read_recorded cfg src _ (rw_conn dst) _ _ _ _ _ _ Hrd)
      as [Hp1 Hc1].
    assert (Hafter : forall wr w2 tr2,
              payloads (rw_conn dst) tr2 = chunks (rw_conn src) (rec_reads w2) ->
              wr = Z.of_nat (length (concat (payloads (rw_conn dst) tr2))) ->
              match after_read wr er with
              | Some r0 => ret (Some r0)
              | None => io_Copy cfg fuel dst src wr
              end (w2, tr2) = ((w', tr'), r) ->
              let sent := payloads (rw_conn dst) tr' in
              let got := chunks (rw_conn src) (rec_reads w') in
              (sent = got \/ exists bs, got = sent ++ [bs]) /\
              match r with
              | None => sent = got
              | Some (n, None) =>
                  sent = got /\ n = Z.of_nat (length (concat got))
              | Some (_, Some _) => True
              end).
    { intros wr w2 tr2 HJ2 Hwr2 Hrun2. unfold after_read in Hrun2.
      destruct er as [e|]; [|by eapply IH].
      destruct e; injection Hrun2 as <- <- <-; simpl; auto.
      split; [by left|]. split; [done|]. by rewrite <- HJ2. }
    destruct bs as [|b bs].
    + simpl in Hrun. rewrite app_nil_r in Hc1.
      eapply Hafter; [| |exact Hrun]; congruence.
    + cbn [length] in Hrun.
      replace (0 <? Z.of_nat (S (length bs))) with true in Hrun
        by (symmetry; apply Z.ltb_lt; lia).
      unfold bind at 1 in Hrun.
      destruct (rw_Write cfg dst (b :: bs) (w1, tr1))
        as [[w2 tr2] [nw0 ew0]] eqn:Hwt.
      destruct (rw_Write_recorded cfg dst _ (rw_conn dst) _ _ _ _ _ _ Hwt)
        as [Hr2 [Hp2|(Hp2 & -> & Hew)]].
      * assert (HJ2 : payloads (rw_conn dst) tr2 =
                      chunks (rw_conn src) (rec_reads w2))
          by (rewrite Hp2, Hr2, Hc1, Hp1, HJ; done).
        destruct ((nw0 <? 0) || (Z.of_nat (S (length bs)) <? nw0)).
        { destruct ew0; injection Hrun as <- <- <-; simpl; auto. }
        destruct ew0 as [e|]; [injection Hrun as <- <- <-; simpl; auto|].
        destruct (Z.of_nat (S (length bs)) =? nw0) eqn:Hnw;
          [|injection Hrun as <- <- <-; simpl; auto].
        apply Z.eqb_eq in Hnw. simpl negb in Hrun. cbv iota in Hrun.
        eapply Hafter; [exact HJ2| |exact Hrun].
        rewrite Hp2, Hp1, concat_app, length_app. simpl.
        rewrite app_nil_r. cbn [length] in Hnw. lia.
      * destruct ew0 as [e|]; [|done].
        replace ((0 <? 0) || (Z.of_nat (S (length bs)) <? 0)) with false
          in Hrun by (symmetry; apply orb_false_iff; split;
                      [done|apply Z.ltb_ge; lia]).
        injection Hrun as <- <- <-. simpl. split; [|done].
        right. exists (b :: bs). by rewrite Hp2, Hr2, Hc1, Hp1, HJ.
Qed.
End Faithful.

(** X17. The relay hands on what it reads, as it reads it: on a
    network that records every read, the payloads a copy has handed to
    its destination are, in order, the non-empty chunks it has read
    from its source, none dropped, repeated or altered, the idle
    timeout wrapper or not in between; only the last chunk read may be
    missing, when the copy ended in an error. While the copy goes on
    and when it ends without error nothing is missing, and the count
    it returns is the number of bytes read. *)
Theorem relay_copies_faithfully {W} `{Net W} (cfg : viper) (d : direction)
    (fuel : nat) (writer reader : conn_id) (w : W) :
  let out := copy_of cfg d fuel writer reader (mkRecorded w [], []) in
  let sent := payloads (dst_of d writer reader) out.1.2 in
  let got := chunks (src_of d writer reader) (rec_reads out.1.1) in
  (sent = got \/ exists bs, got = sent ++ [bs]) /\
  match out.2 with
  | None => sent = got
  | Some (n, None) => sent = got /\ n = Z.of_nat (length (concat got))
  | Some (_, Some _) => True
  end.
Proof.
  intros out sent got. subst sent got out.
  destruct (rw_conn_tcon cfg writer) as [Hc _].
  destruct d; simpl copy_of; simpl src_of; simpl dst_of.
  - destruct (io_Copy cfg fuel (RWConn reader) (tcon cfg writer) 0
                (mkRecorded w [], [])) as [[w' tr'] r] eqn:Hrun.
    pose proof (io_Copy_faithful cfg (RWConn reader) (tcon cfg writer) fuel
                  0 (mkRecorded w []) [] eq_refl eq_refl w' tr' r Hrun) as HF.
    rewrite Hc in HF. exact HF.
  - destruct (io_Copy cfg fuel (tcon cfg writer) (RWConn reader) 0
                (mkRecorded w [], [])) as [[w' tr'] r] eqn:Hrun.
    pose proof (io_Copy_faithful cfg (tcon cfg writer) (RWConn reader) fuel
                  0 (mkRecorded w []) [] eq_refl eq_refl w' tr' r Hrun) as HF.
    rewrite Hc in HF. exact HF.
Qed.

(** ** The relay: how a direction ends *)

(** X18. With the option idle-connection on, a refused read deadline
    on the downstream ends the direction to the reader at once: the
    downstream is not read and nothing is written to the upstream, the
    error is logged when debug is set (unless it is [io.EOF], which
    the copy takes for a clean end), and both connections are closed. *)
Theorem relay_deadline_failure_ends {W} `{Net W} (timeout : Duration)
    (dbg : bool) (fuel : nat) (writer reader : conn_id) (w w1 w2 : W)
    (tr : list call) (now : Time) (e : error) :
  time_Now w = (w1, now) ->
  net_SetReadDeadline writer w1 (Time_Add now timeout) = (w2, Some e) ->
  let cfg := mkViper true timeout dbg in
  run_direction cfg ToReader (S fuel) writer reader (w, tr) =
    (((net_Close writer (net_Close reader w2).1).1,
      tr ++ [CallNow; CallSetReadDeadline writer (Time_Add now timeout)] ++
        log_calls cfg (what_of ToReader)
          (match e with EOF => None | _ => Some e end) ++
        [CallClose reader; CallClose writer]),
     Some tt).
Proof.
  intros Hnow Hset cfg. subst cfg. simpl run_direction.
  rewrite copyToReader_unfold. cbn [io_Copy]. unfold bind at 1.
  unfold tcon. simpl idle_connection. cbn [rw_Read].
  unfold IdleTimeoutConn.Read, bind, ret, do_Now, do_SetReadDeadline.
  rewrite Hnow. simpl. rewrite Hset. simpl.
  destruct e; simpl; by rewrite <- !app_assoc.
Qed.

Lemma relay_deadline_failure_ends_witness :
  let cfg := mkViper true (30000 * Millisecond) true in
  run_direction cfg ToReader 1 0%nat 1%nat (example_net_no_deadline, []) =
    (((net_Close 0%nat
         (net_Close 1%nat
            (mkMockNet (mn_conns example_net_no_deadline) 1001)).1).1,
      [] ++ [CallNow;
             CallSetReadDeadline 0
               (Time_Add 1000 (30000 * Millisecond))] ++
        log_calls cfg (what_of ToReader)
          (Some (ErrOther "set deadline: not supported")) ++
        [CallClose 1; CallClose 0]),
     Some tt).
Proof.
  apply (relay_deadline_failure_ends (30000 * Millisecond) true 0 0%nat 1%nat
           example_net_no_deadline
           (mkMockNet (mn_conns example_net_no_deadline) 1001)
           (mkMockNet (mn_conns example_net_no_deadline) 1001)
           [] 1000 (ErrOther "set deadline: not supported")).
  - reflexivity.
  - reflexivity.
Defined.

(** X19. A write to the downstream that fails, falls short or reports
    an impossible count ends the direction to the writer there and
    then, even when the upstream has more to deliver: the bytes just
    read are not written again, the error (the write's own,
    [io.ErrShortWrite], or the invalid-write error) is logged when
    debug is set, and both connections are closed. *)
Theorem relay_write_failure_ends {W} `{Net W} (timeout : Duration)
    (dbg : bool) (fuel : nat) (writer reader : conn_id) (w w1 w2 : W)
    (tr : list call) (b : byte) (bs : list byte) (er : option error)
    (nw : Z) (ew : option error) (e : error) :
  net_Read reader w copy_buffer_size = (w1, (b :: bs, er)) ->
  net_Write writer w1 (b :: bs) = (w2, (nw, ew)) ->
  write_failure (Z.of_nat (length (b :: bs))) nw ew = Some e ->
  let cfg := mkViper false timeout dbg in
  run_direction cfg ToWriter (S fuel) writer reader (w, tr) =
    (((net_Close writer (net_Close reader w2).1).1,
      tr ++ [CallRead reader copy_buffer_size; CallWrite writer (b :: bs)] ++
        log_calls cfg (what_of ToWriter) (Some e) ++
        [CallClose reader; CallClose writer]),
     Some tt).
Proof.
  intros Hrd Hwt Hfail cfg. subst cfg. simpl run_direction.
  rewrite copyToWriter_unfold. cbn [io_Copy]. unfold bind at 1.
  unfold tcon. simpl idle_connection. cbn [rw_Read rw_Write].
  unfold do_Read. rewrite Hrd. cbv beta iota zeta.
  replace (0 <? Z.of_nat (length (b :: bs))) with true
    by (symmetry; apply Z.ltb_lt; cbn [length]; lia).
  unfold bind at 1. cbn [rw_Write idle_connection]. unfold do_Write.
  rewrite Hwt.
  cbv beta iota zeta.
  unfold write_failure in Hfail.
  destruct ((nw <? 0) || (Z.of_nat (length (b :: bs)) <? nw)).
  - injection Hfail as <-.
    destruct ew; simpl; by rewrite <- !app_assoc.
  - destruct ew as [e0|].
    + injection Hfail as <-. simpl. by rewrite <- !app_assoc.
    + destruct (Z.of_nat (length (b :: bs)) =? nw); [done|].
      injection Hfail as <-. simpl. by rewrite <- !app_assoc.
Qed.

Lemma relay_write_failure_ends_witness :
  let cfg := mkViper false (30000 * Millisecond) true in
  run_direction cfg ToWriter 1 0%nat 1%nat (example_net_writer_closed, []) =
    (((net_Close 0%nat
         (net_Close 1%nat
            (mkMockNet
               [mkMockConn [] (ErrOther "i/o timeout") [] true None None None;
                mkMockConn [] EOF [] false None None None]
               1000)).1).1,
      [] ++ [CallRead 1 copy_buffer_size;
             CallWrite 0 [Byte.x68; Byte.x69]] ++
        log_calls cfg (what_of ToWriter) (Some err_closed) ++
        [CallClose 1; CallClose 0]),
     Some tt).
Proof.
  apply (relay_write_failure_ends (30000 * Millisecond) true 0 0%nat 1%nat
           example_net_writer_closed
           (mkMockNet
              [mkMockConn [] (ErrOther "i/o timeout") [] true None None None;
               mkMockConn [] EOF [] false None None None]
              1000)
           (mkMockNet
              [mkMockConn [] (ErrOther "i/o timeout") [] true None None None;
               mkMockConn [] EOF [] false None None None]
              1000)
           [] Byte.x68 [Byte.x69] None 0 (Some err_closed) err_closed).
  - reflexivity.
  - reflexivity.
  - reflexivity.
Defined.
